(** * newswire: the tweet polling pipeline of [bot.py]

    A shallow embedding of [remove_similar_headlines_tfidf],
    [add_twitter_channel], [add_twitter_account] and of one pass of the
    [while True] body of [stream_tweets], followed by the properties the
    specification states about them.

    Conventions.
    - Integers of MySQL and of the Twitter API are [Z].
    - Python floats (similarity scores, thresholds) are finite here and are
      represented by the rational they denote; [>=] on them is [Qle_bool].
    - Text is ASCII: [str.lower] and [str.strip] are given on ASCII.
    - The database is a record of row lists (order and duplicates matter:
      every [INSERT] of the source appends a row).
    - [stream_tweets] runs in a monad that threads the database, collects
      the observable effects in order and may raise. *)

From Stdlib Require Import ZArith QArith List String Ascii Bool Lia.
From Stdlib Require Import DecimalString Sorted.
Import ListNotations.
Open Scope string_scope.
Open Scope list_scope.
Open Scope Z_scope.

(** ** Tweets *)

(** The attributes of a tweepy status (extended mode) that matter here.
    [bot.py] reads [id], [user.screen_name] and [full_text]; the three
    remaining fields are the attributes a delivery filter would look at,
    and the source never reads them. *)
Record tweet := mkTweet {
  tweet_id : Z;
  screen_name : string;
  full_text : string;
  is_retweet : bool;
  is_reply : bool;
  media : list string
}.

(** ** Text normalisation: [full_text.lower().strip()] *)

Definition lower_ascii (c : ascii) : ascii :=
  let n := N_of_ascii c in
  if ((65 <=? n) && (n <=? 90))%N then ascii_of_N (n + 32) else c.

Fixpoint lower (s : string) : string :=
  match s with
  | EmptyString => EmptyString
  | String c r => String (lower_ascii c) (lower r)
  end.

(** The ASCII characters [str.strip] removes. *)
Definition is_space (c : ascii) : bool :=
  let n := N_of_ascii c in
  (((9 <=? n) && (n <=? 13)) || ((28 <=? n) && (n <=? 32)))%N.

Fixpoint lstrip (s : string) : string :=
  match s with
  | EmptyString => EmptyString
  | String c r => if is_space c then lstrip r else s
  end.

Fixpoint rstrip (s : string) : string :=
  match s with
  | EmptyString => EmptyString
  | String c r =>
      match rstrip r with
      | EmptyString => if is_space c then EmptyString else String c EmptyString
      | r' => String c r'
      end
  end.

Definition strip (s : string) : string := rstrip (lstrip s).

Definition tweet_text (t : tweet) : string := strip (lower (full_text t)).

(** ** The scikit-learn pipeline

    [cosine_similarity(vectorizer.fit_transform(tweet_texts))[-1][:-1]]:
    the similarities of the last text to each earlier one, in the vector
    space fitted on exactly these texts.  [fit_transform] raises
    [ValueError] (empty vocabulary) when no text has a token left after
    stop-word removal: that is [None]. *)
Class Vectorizer := {
  last_row_similarities : list string -> option (list Q)
}.

(** What the scikit-learn pipeline guarantees about that row: one score per
    earlier text, none negative (TF-IDF weights are non-negative). *)
Definition row_well_formed (V : Vectorizer) : Prop :=
  forall texts row,
    last_row_similarities texts = Some row ->
    List.length row = pred (List.length texts) /\
    Forall (fun s => (0 <= s)%Q) row.

(** [fit_transform] never raises on the given corpora. *)
Definition fit_total (V : Vectorizer) : Prop :=
  forall texts, last_row_similarities texts <> None.

(** ** [remove_similar_headlines_tfidf] *)

Section Dedupe.
Context {V : Vectorizer}.

(** [for similarity in row: if similarity >= threshold: ...; break] *)
Fixpoint any_similar (similarity_threshold : Q) (row : list Q) : bool :=
  match row with
  | [] => false
  | similarity :: rest =>
      if Qle_bool similarity_threshold similarity then true
      else any_similar similarity_threshold rest
  end.

(** The body of the outer loop up to [if is_unique]: the value of
    [is_unique] for [tw] given the tweets accepted so far. *)
Definition is_unique (similarity_threshold : Q)
    (unique_tweets : list tweet) (tw : tweet) : option bool :=
  match unique_tweets with
  | [] => Some true
  | _ :: _ =>
      let tweet_texts := map tweet_text unique_tweets ++ [tweet_text tw] in
      match last_row_similarities tweet_texts with
      | None => None
      | Some row => Some (negb (any_similar similarity_threshold row))
      end
  end.

(** The outer loop, from the accumulator [unique_tweets]. *)
Fixpoint dedupe_loop (similarity_threshold : Q)
    (tweets unique_tweets : list tweet) : option (list tweet) :=
  match tweets with
  | [] => Some unique_tweets
  | tw :: rest =>
      match is_unique similarity_threshold unique_tweets tw with
      | None => None
      | Some true =>
          dedupe_loop similarity_threshold rest (unique_tweets ++ [tw])
      | Some false => dedupe_loop similarity_threshold rest unique_tweets
      end
  end.

Definition remove_similar_headlines_tfidf
    (tweets : list tweet) (similarity_threshold : Q) : option (list tweet) :=
  dedupe_loop similarity_threshold tweets [].

(** [fit_transform] succeeds on the two texts. *)
Definition fits (p q : tweet) : bool :=
  match last_row_similarities [tweet_text p; tweet_text q] with
  | Some _ => true
  | None => false
  end.
End Dedupe.

(** The default of the parameter: [similarity_threshold=0.4]. *)
Definition default_similarity_threshold : Q := 4 # 10.

(** ** The database

    [twitter_channels] is the table [create_table] creates: its only key is
    the [AUTO_INCREMENT] column [id].  The source creates neither
    [monitored_twitter_accounts] nor [twitter_account_channels]; their
    columns are the ones [stream_tweets] and [add_twitter_account] read and
    write, and [id] of the former is generated ([cur.lastrowid]). *)

Record channel_row := mkChannelRow {
  row_id : Z;
  twitter_account : string;
  channel_id : Z;
  retweets : bool;
  replies : bool;
  media_only : bool;
  similarity_threshold : Q
}.

Record account_row := mkAccount {
  acc_id : Z;
  twitter_id : Z;
  twitter_handle : string;
  last_tweet_id : option Z
}.

Record database := mkDb {
  twitter_channels : list channel_row;
  twitter_channels_auto : Z;
  monitored_twitter_accounts : list account_row;
  monitored_auto : Z;
  twitter_account_channels : list (Z * Z)
}.

(** The state after [create_table] on a fresh schema. *)
Definition empty_db : database := mkDb [] 1 [] 1 [].

Definition with_twitter_channels (rows : list channel_row) (auto : Z)
    (d : database) : database :=
  mkDb rows auto (monitored_twitter_accounts d) (monitored_auto d)
       (twitter_account_channels d).

Definition with_accounts (rows : list account_row) (d : database)
    : database :=
  mkDb (twitter_channels d) (twitter_channels_auto d) rows (monitored_auto d)
       (twitter_account_channels d).

(** [INSERT INTO twitter_channels (...) VALUES (...)] *)
Definition add_twitter_channel (d : database) (account : string)
    (channel : Z) (rts rps media : bool) (threshold : Q) : database :=
  let row := mkChannelRow (twitter_channels_auto d) account channel
                          rts rps media threshold in
  with_twitter_channels (twitter_channels d ++ [row])
                        (twitter_channels_auto d + 1) d.

(** The rows of [twitter_channels] of one account and channel. *)
Definition subscriptions_of (d : database) (account : string) (channel : Z)
    : list channel_row :=
  filter (fun r => String.eqb (twitter_account r) account
                   && (channel_id r =? channel))
         (twitter_channels d).

(** ** The outside world of one polling cycle

    [timeline u] is what the Twitter API holds for user [u], newest first,
    or [None] when the call raises [tweepy.TweepError] (its subclass
    [RateLimitError] included); [get_user] is [api.get_user];
    [get_channel c] tells whether [bot.get_channel(c)] finds the channel;
    [send_ok c m] whether [channel.send(m)] returns rather than raises. *)
Record world := mkWorld {
  timeline : Z -> option (list tweet);
  get_user : string -> option (Z * string);
  get_channel : Z -> bool;
  send_ok : Z -> string -> bool
}.

(** [add_twitter_account]; [None] when [api.get_user] raises. *)
Definition add_twitter_account (w : world) (d : database)
    (handle : string) (channel : Z) : option database :=
  match get_user w handle with
  | None => None
  | Some (user_id, user_screen_name) =>
      let d1 :=
        match find (fun r => twitter_id r =? user_id)
                   (monitored_twitter_accounts d) with
        | Some r => (acc_id r, d)
        | None =>
            (monitored_auto d,
             mkDb (twitter_channels d) (twitter_channels_auto d)
                  (monitored_twitter_accounts d
                     ++ [mkAccount (monitored_auto d) user_id
                                   user_screen_name None])
                  (monitored_auto d + 1)
                  (twitter_account_channels d))
        end in
      let '(account_id, d') := d1 in
      Some (mkDb (twitter_channels d') (twitter_channels_auto d')
                 (monitored_twitter_accounts d') (monitored_auto d')
                 (twitter_account_channels d' ++ [(account_id, channel)]))
  end.

(** ** Effects of [stream_tweets] *)

Inductive exn := TweepError | DiscordError | ValueError.

Inductive event :=
| Sent (channel : Z) (tweet : Z) (message : string)
| SendRaised (channel : Z) (tweet : Z)
| CursorSet (account : Z) (tweet : Z)
| FetchErrorPrinted (handle : string)
| StreamErrorPrinted.

Inductive result (A : Type) :=
| Ok (a : A)
| Raise (e : exn).
Arguments Ok {A} a.
Arguments Raise {A} e.

(** A computation reads and writes the database, emits events in order and
    returns or raises; what was written and emitted before an exception
    stays (every [UPDATE] is committed at once). *)
Definition io (A : Type) : Type :=
  database -> result A * database * list event.

Definition ret {A} (a : A) : io A := fun d => (Ok a, d, []).

Definition raise {A} (e : exn) : io A := fun d => (Raise e, d, []).

Definition emit (e : event) : io unit := fun d => (Ok tt, d, [e]).

Definition bind {A B} (m : io A) (k : A -> io B) : io B :=
  fun d =>
    match m d with
    | (Ok a, d1, ev1) =>
        match k a d1 with
        | (r, d2, ev2) => (r, d2, ev1 ++ ev2)
        end
    | (Raise e, d1, ev1) => (Raise e, d1, ev1)
    end.

Declare Scope io_scope.
Delimit Scope io_scope with io.
Notation "x <- m ;; k" := (bind m (fun x => k))
  (at level 100, m at next level, right associativity) : io_scope.
Notation "m ;; k" := (bind m (fun _ => k))
  (at level 100, right associativity) : io_scope.
Open Scope io_scope.

(** [try: m  except tweepy.TweepError: handler] *)
Definition except_tweep_error (m : io unit) (handler : io unit) : io unit :=
  fun d =>
    match m d with
    | (Raise TweepError, d1, ev1) =>
        match handler d1 with
        | (r, d2, ev2) => (r, d2, ev1 ++ ev2)
        end
    | other => other
    end.

(** A [for] loop whose body may raise. *)
Fixpoint for_each {A} (l : list A) (body : A -> io unit) : io unit :=
  match l with
  | [] => ret tt
  | x :: rest => body x ;; for_each rest body
  end.

Definition lift_value_error {A} (o : option A) : io A :=
  match o with
  | Some a => ret a
  | None => raise ValueError
  end.

(** ** [stream_tweets]: one pass of the body of [while True] *)

(** Python truth of a [last_tweet_id] column: [NULL] and [0] are false. *)
Definition truthy (c : option Z) : bool :=
  match c with
  | Some z => negb (z =? 0)
  | None => false
  end.

(** The page size of the timeline endpoint when [count] is not given. *)
Definition default_count : nat := 20.

(** [api.user_timeline(user_id=..., since_id=..., count=...,
    include_rts=True)], a call into tweepy: as the timeline endpoint is
    documented, the newest posts first, only those with an id above
    [since_id], at most [count] of them. *)
Definition user_timeline (w : world) (user_id : Z) (since_id : option Z)
    (count : option nat) : io (list tweet) :=
  match timeline w user_id with
  | None => raise TweepError
  | Some posts =>
      let newer :=
        match since_id with
        | Some s => filter (fun t => s <? tweet_id t) posts
        | None => posts
        end in
      ret (firstn (match count with Some c => c | None => default_count end)
                  newer)
  end.

(** Lines 160-173: the two calls of [api.user_timeline]. *)
Definition fetch_tweets (w : world) (account : account_row)
    : io (list tweet) :=
  if truthy (last_tweet_id account)
  then user_timeline w (twitter_id account) (last_tweet_id account) None
  else user_timeline w (twitter_id account) None (Some 1%nat).

Definition string_of_Z (z : Z) : string :=
  NilZero.string_of_int (Z.to_int z).

Definition newline : string := String (ascii_of_nat 10) EmptyString.

(** The f-string passed to [channel.send]. *)
Definition render (tw : tweet) : string :=
  String.append "**"
    (String.append (screen_name tw)
       (String.append ":** "
          (String.append (full_text tw)
             (String.append newline
                (String.append "https://twitter.com/i/web/status/"
                               (string_of_Z (tweet_id tw))))))).

(** [SELECT * FROM monitored_twitter_accounts] *)
Definition select_accounts : io (list account_row) :=
  fun d => (Ok (monitored_twitter_accounts d), d, []).

(** [SELECT discord_channel_id FROM twitter_account_channels
     WHERE twitter_account_id = id] *)
Definition channel_ids_of (d : database) (id : Z) : list Z :=
  map snd (filter (fun l => fst l =? id) (twitter_account_channels d)).

Definition select_channel_ids (id : Z) : io (list Z) :=
  fun d => (Ok (channel_ids_of d id), d, []).

Definition set_last_tweet_id (id tid : Z) (r : account_row) : account_row :=
  if acc_id r =? id
  then mkAccount (acc_id r) (twitter_id r) (twitter_handle r) (Some tid)
  else r.

(** [UPDATE monitored_twitter_accounts SET last_tweet_id = tid
     WHERE id = id] followed by [conn.commit()]. *)
Definition set_cursor (id tid : Z) (d : database) : database :=
  with_accounts (map (set_last_tweet_id id tid)
                     (monitored_twitter_accounts d)) d.

Definition update_last_tweet_id (id tid : Z) : io unit :=
  fun d => (Ok tt, set_cursor id tid d, [CursorSet id tid]).

(** Lines 187-191: the body of [for channel_id in channel_ids]. *)
Definition send_to_channel (w : world) (tw : tweet) (channel : Z)
    : io unit :=
  if get_channel w channel then
    if send_ok w channel (render tw)
    then emit (Sent channel (tweet_id tw) (render tw))
    else (emit (SendRaised channel (tweet_id tw)) ;; raise DiscordError)
  else ret tt.

(** Lines 180-198: the body of [for tweet in unique_tweets[::-1]]. *)
Definition deliver_tweet (w : world) (id : Z) (tw : tweet) : io unit :=
  channel_ids <- select_channel_ids id ;;
  for_each channel_ids (send_to_channel w tw) ;;
  update_last_tweet_id id (tweet_id tw).

Section StreamTweets.
Context {V : Vectorizer}.

(** Lines 156-201: the body of [for account in accounts]. *)
Definition process_account (w : world) (account : account_row)
    : io unit :=
  except_tweep_error
    (tweets <- fetch_tweets w account ;;
     unique_tweets <-
       lift_value_error
         (remove_similar_headlines_tfidf tweets
                                         default_similarity_threshold) ;;
     for_each (rev unique_tweets) (deliver_tweet w (acc_id account)))
    (emit (FetchErrorPrinted (twitter_handle account))).

(** Lines 150-201: one polling cycle. *)
Definition stream_tweets (w : world) : io unit :=
  accounts <- select_accounts ;;
  for_each accounts (process_account w).

(** [tweet_streamer]: cycle after cycle, each in the world it meets; an
    exception that escapes a cycle is printed and the next cycle starts
    after the same pause. *)
Fixpoint tweet_streamer (ws : list world) (d : database)
    : database * list event :=
  match ws with
  | [] => (d, [])
  | w :: rest =>
      match stream_tweets w d with
      | (r, d1, ev1) =>
          let printed :=
            match r with
            | Ok _ => []
            | Raise _ => [StreamErrorPrinted]
            end in
          match tweet_streamer rest d1 with
          | (d2, ev2) => (d2, ev1 ++ printed ++ ev2)
          end
      end
  end.
End StreamTweets.

(** ** Reading results *)

Definition result_of {A} (o : result A * database * list event) : result A :=
  fst (fst o).
Definition db_of {A} (o : result A * database * list event) : database :=
  snd (fst o).
Definition events_of {A} (o : result A * database * list event)
    : list event := snd o.

(** The cursor column of the first row with the given id. *)
Definition cursor_of (d : database) (id : Z) : option Z :=
  match find (fun r => acc_id r =? id) (monitored_twitter_accounts d) with
  | Some r => last_tweet_id r
  | None => None
  end.

(** The order of cursors: [NULL] is below every post id. *)
Definition cursor_le (c1 c2 : option Z) : Prop :=
  match c1, c2 with
  | None, _ => True
  | Some _, None => False
  | Some a, Some b => a <= b
  end.

(** The channels a tweet was sent to, in order. *)
Fixpoint channels_sent (tid : Z) (evs : list event) : list Z :=
  match evs with
  | [] => []
  | Sent c t _ :: rest =>
      if t =? tid then c :: channels_sent tid rest else channels_sent tid rest
  | _ :: rest => channels_sent tid rest
  end.

(** The post ids the cursor of an account was set to, in order. *)
Fixpoint cursor_updates (id : Z) (evs : list event) : list Z :=
  match evs with
  | [] => []
  | CursorSet a t :: rest =>
      if a =? id then t :: cursor_updates id rest else cursor_updates id rest
  | _ :: rest => cursor_updates id rest
  end.

(** ** The delivery filter, in the words of the specification

    Section 4.5 step 2.  Nothing in [bot.py] evaluates it; it is stated
    here to compare the deliveries of [stream_tweets] with it. *)
Definition spec_filter_rejects (s : channel_row) (p : tweet) : bool :=
  (negb (retweets s) && is_retweet p)
  || (negb (replies s) && is_reply p)
  || (media_only s && match media p with [] => true | _ => false end).

(** ** A vectorizer for corpora that share one vocabulary

    With [smooth_idf] the weight of a term of document frequency [df] among
    [n] texts is [ln((1+n)/(1+df)) + 1]; when every term occurs in every
    text all weights are [1], the TF-IDF vectors are the term counts, and
    the cosine similarity of two texts is the cosine of their count
    vectors; when two texts share no term their similarity is [0] whatever
    the weights.  [count_cosine_row] computes the cosine of the count
    vectors, rounded down to six decimals, for texts made of words that are
    not English stop words; it is the instance at which the properties
    below are evaluated, on corpora of these two kinds. *)

Definition is_word_char (c : ascii) : bool :=
  let n := N_of_ascii c in
  (((48 <=? n) && (n <=? 57)) || ((65 <=? n) && (n <=? 90))
   || (n =? 95) || ((97 <=? n) && (n <=? 122)))%N.

Definition flush (cur : string) : list string :=
  if (2 <=? String.length cur)%nat then [cur] else [].

(** The tokens of [token_pattern]: maximal runs of two or more word
    characters. *)
Fixpoint tokens_from (s cur : string) : list string :=
  match s with
  | EmptyString => flush cur
  | String c r =>
      if is_word_char c
      then tokens_from r (String.append cur (String c EmptyString))
      else flush cur ++ tokens_from r EmptyString
  end.

Definition tokenize (s : string) : list string := tokens_from s EmptyString.

Definition vocabulary (docs : list (list string)) : list string :=
  nodup string_dec (List.concat docs).

Definition term_counts (vocab doc : list string) : list Z :=
  map (fun term => Z.of_nat (count_occ string_dec doc term)) vocab.

Fixpoint dot (u v : list Z) : Z :=
  match u, v with
  | a :: u', b :: v' => a * b + dot u' v'
  | _, _ => 0
  end.

(** [10^6 * cos(u, v)], rounded down; [0] for a zero vector. *)
Definition cosine_micro (u v : list Z) : Z :=
  let n := dot u u * dot v v in
  if n =? 0 then 0 else Z.sqrt (dot u v * dot u v * 10 ^ 12 / n).

Definition count_cosine_row (texts : list string) : option (list Q) :=
  let docs := map tokenize texts in
  match vocabulary docs with
  | [] => None
  | vocab =>
      let vectors := map (term_counts vocab) docs in
      Some (map (fun u => cosine_micro u (last vectors []) # 1000000)
                (removelast vectors))
  end.

Definition count_cosine : Vectorizer :=
  {| last_row_similarities := count_cosine_row |}.

(** ** Concrete posts, databases and worlds *)

Definition post_a : tweet :=
  mkTweet 11 "nasa" "Rocket rocket rocket rocket rocket rocket orbit"
          false false [].
Definition post_b : tweet :=
  mkTweet 12 "nasa" "rocket rocket orbit orbit orbit" false false [].
Definition post_c : tweet :=
  mkTweet 13 "nasa" " rocket orbit orbit orbit orbit orbit orbit "
          false false [].

(** A retweet, a reply and a post without media, on unrelated subjects. *)
Definition post_retweet : tweet :=
  mkTweet 21 "nasa" "RT @esa: ariane lifts off" true false ["a.png"].
Definition post_reply : tweet :=
  mkTweet 22 "nasa" "@jaxa congratulations team" false true ["b.png"].
Definition post_plain : tweet :=
  mkTweet 23 "nasa" "weather delays tomorrow" false false [].

(** Posts of [esa]; the first two repeat the texts of [post_a] and
    [post_b]. *)
Definition esa_a : tweet := mkTweet 14 "esa" (full_text post_a) false false [].
Definition esa_b : tweet := mkTweet 15 "esa" (full_text post_b) false false [].
Definition esa_post : tweet :=
  mkTweet 31 "esa" "Vega rollout complete" false false [].

(** Twitter knows [nasa] as user 100 and [esa] as user 200. *)
Definition lookup_user (handle : string) : option (Z * string) :=
  if String.eqb handle "nasa" then Some (100, "nasa")
  else if String.eqb handle "esa" then Some (200, "esa")
  else None.

Definition timelines (nasa esa : option (list tweet)) (user_id : Z)
    : option (list tweet) :=
  if user_id =? 100 then nasa
  else if user_id =? 200 then esa
  else Some [].

Definition quiet_world : world :=
  mkWorld (timelines (Some []) (Some [])) lookup_user
          (fun _ => true) (fun _ _ => true).

Definition subscribe (handle : string) (channel : Z) (d : database)
    : database :=
  match add_twitter_account quiet_world d handle channel with
  | Some d' => d'
  | None => d
  end.

Definition set_cursors (d : database) (c : option Z) : database :=
  with_accounts
    (map (fun r => mkAccount (acc_id r) (twitter_id r) (twitter_handle r) c)
         (monitored_twitter_accounts d)) d.

(** [nasa] is monitored in channel 7, where [!start nasa False False True]
    was also given; the cursor stands at post 20. *)
Definition filtered_db : database :=
  set_cursors
    (subscribe "nasa" 7
       (add_twitter_channel empty_db "nasa" 7 false false true (1 # 2)))
    (Some 20).

Definition filtered_world : world :=
  mkWorld (timelines (Some [post_plain; post_reply; post_retweet]) (Some []))
          lookup_user (fun _ => true) (fun _ _ => true).

(** [nasa] is monitored in channels 7 and 8 and was never polled; sending
    to channel 7 raises. *)
Definition two_channel_db : database :=
  subscribe "nasa" 8 (subscribe "nasa" 7 empty_db).

Definition failing_world : world :=
  mkWorld (timelines (Some [post_plain]) (Some [])) lookup_user
          (fun _ => true) (fun c _ => negb (c =? 7)).

(** Channel 7 is gone; channel 8 works. *)
Definition absent_world : world :=
  mkWorld (timelines (Some [post_plain]) (Some [])) lookup_user
          (fun c => negb (c =? 7)) (fun _ _ => true).

(** [nasa] goes to channel 7, [esa] to channel 8; sending to 7 raises. *)
Definition two_account_db : database :=
  subscribe "esa" 8 (subscribe "nasa" 7 empty_db).

Definition two_account_world : world :=
  mkWorld (timelines (Some [post_plain]) (Some [esa_post])) lookup_user
          (fun _ => true) (fun c _ => negb (c =? 7)).

(** The Twitter call for [nasa] raises; [esa] has a post. *)
Definition rate_limited_world : world :=
  mkWorld (timelines None (Some [esa_post])) lookup_user
          (fun _ => true) (fun _ _ => true).

(** [nasa] stores threshold 0.9 and [esa] 0.5; both cursors stand at 10
    and both timelines hold the same two posts. *)
Definition threshold_db : database :=
  set_cursors
    (subscribe "esa" 8
       (subscribe "nasa" 7
          (add_twitter_channel
             (add_twitter_channel empty_db "nasa" 7 false false false
                                  (9 # 10))
             "esa" 8 false false false (5 # 10))))
    (Some 10).

Definition threshold_world : world :=
  mkWorld (timelines (Some [post_b; post_a]) (Some [esa_b; esa_a]))
          lookup_user (fun _ => true) (fun _ _ => true).

(** A database holding a subscription of [esa] in channel 8 and one of
    [nasa] in channel 7, with a monitored account linked to a channel. *)
Definition stored_db : database :=
  subscribe "nasa" 7
    (add_twitter_channel
       (add_twitter_channel empty_db "esa" 8 false true false (3 # 10))
       "nasa" 7 false false false (5 # 10)).

(** [nasa] was never polled and has three posts. *)
Definition bootstrap_db : database := subscribe "nasa" 7 empty_db.

Definition bootstrap_world : world :=
  mkWorld (timelines (Some [post_c; post_b; post_a]) (Some [])) lookup_user
          (fun _ => true) (fun _ _ => true).

(** Later [nasa] has three more posts. *)
Definition later_world : world :=
  mkWorld (timelines (Some [post_plain; post_reply; post_retweet;
                            post_c; post_b; post_a])
                     (Some []))
          lookup_user (fun _ => true) (fun _ _ => true).

(** ** [post_tweet_to_discord]

    The function takes a tweet in the shape of the v2 streaming payload, a
    dictionary.  Keys the code reads with [d[k]] and that a payload may
    lack are options here ([None]: the access raises [KeyError]);
    [variant.get('bitrate', 0)] reads an optional key with a default. *)

Record variant := mkVariant {
  bitrate : option Z;
  variant_url : string
}.

(** An element of [tweet['includes']['media']]; [video_variants] is
    [media['video_info']['variants']]. *)
Record media_object := mkMedia {
  media_type : string;
  media_url : option string;
  video_variants : option (list variant)
}.

(** [attachments] is [None] without the key ['attachments'] in
    [tweet['data']], [Some None] when it has no ['media_keys']. *)
Record v2_tweet := mkV2 {
  data_text : string;
  data_id : string;
  attachments : option (option (list string));
  includes_media : option (list media_object)
}.

(** The fields of a [discord.Embed] the function sets. *)
Record embed := mkEmbed {
  embed_title : string;
  embed_url : string;
  embed_color : Z;
  embed_image : option string;
  embed_description : option string
}.

(** [client.get_channel] and [channel.send(embed=...)]. *)
Record client := mkClient {
  client_get_channel : Z -> bool;
  client_send : Z -> embed -> bool
}.

Inductive post_error :=
| PostKeyError
| PostIndexError
| PostValueError
| PostAttributeError
| PostSendError.

(** [media_keys.index(media_key)]: the first position holding the key. *)
Fixpoint index (media_key : string) (media_keys : list string)
    : option nat :=
  match media_keys with
  | [] => None
  | k :: rest =>
      if String.eqb k media_key then Some 0%nat
      else option_map S (index media_key rest)
  end.

(** [variant.get('bitrate', 0)] *)
Definition rate (v : variant) : Z :=
  match bitrate v with
  | Some b => b
  | None => 0
  end.

(** [max(variants, key=...)]: the running maximum is replaced only by a
    strictly larger key, so the first maximal variant wins. *)
Fixpoint max_from (best : variant) (rest : list variant) : variant :=
  match rest with
  | [] => best
  | v :: rest' =>
      if rate best <? rate v then max_from v rest' else max_from best rest'
  end.

(** [None]: [max] of an empty sequence raises [ValueError]. *)
Definition best_variant (variants : list variant) : option variant :=
  match variants with
  | [] => None
  | v :: rest => Some (max_from v rest)
  end.

Definition set_image (e : embed) (u : string) : embed :=
  mkEmbed (embed_title e) (embed_url e) (embed_color e) (Some u)
          (embed_description e).

Definition set_description (e : embed) (text : string) : embed :=
  mkEmbed (embed_title e) (embed_url e) (embed_color e) (embed_image e)
          (Some text).

Definition video_link (v : variant) : string :=
  String.append "[Video link](" (String.append (variant_url v) ")").

(** Lines 215-223: the body of [for media_key in media_keys]. *)
Definition attach_media (tw : v2_tweet) (media_keys : list string)
    (e : embed) (media_key : string) : post_error + embed :=
  match includes_media tw with
  | None => inl PostKeyError
  | Some includes =>
      match index media_key media_keys with
      | None => inl PostValueError
      | Some i =>
          match nth_error includes i with
          | None => inl PostIndexError
          | Some m =>
              match media_url m with
              | None => inl PostKeyError
              | Some u =>
                  if String.eqb (media_type m) "photo"
                     || String.eqb (media_type m) "animated_gif"
                  then inr (set_image e u)
                  else if String.eqb (media_type m) "video" then
                    match video_variants m with
                    | None => inl PostKeyError
                    | Some vs =>
                        match best_variant vs with
                        | None => inl PostValueError
                        | Some best =>
                            inr (set_description e (video_link best))
                        end
                    end
                  else inr e
              end
          end
      end
  end.

Fixpoint attach_all (tw : v2_tweet) (media_keys : list string) (e : embed)
    (todo : list string) : post_error + embed :=
  match todo with
  | [] => inr e
  | k :: rest =>
      match attach_media tw media_keys e k with
      | inl err => inl err
      | inr e' => attach_all tw media_keys e' rest
      end
  end.

(** [tweet['data']['attachments'].get('media_keys', [])], or nothing to
    loop over without attachments. *)
Definition media_keys_of (tw : v2_tweet) : list string :=
  match attachments tw with
  | Some (Some keys) => keys
  | _ => []
  end.

Definition permalink (id : string) : string :=
  String.append "https://twitter.com/i/web/status/" id.

(** [0x1DA1F2] *)
Definition twitter_blue : Z := 1942002.

(** The embed as built by line 209. *)
Definition base_embed (tw : v2_tweet) : embed :=
  mkEmbed (data_text tw) (permalink (data_id tw)) twitter_blue None None.

(** [inr e]: [channel.send(embed=e)] was called and returned. *)
Definition post_tweet_to_discord (c : client) (tw : v2_tweet)
    (channel_id : Z) : post_error + embed :=
  match attach_all tw (media_keys_of tw) (base_embed tw)
                   (media_keys_of tw) with
  | inl err => inl err
  | inr e =>
      if client_get_channel c channel_id then
        if client_send c channel_id e then inr e else inl PostSendError
      else inl PostAttributeError
  end.

(** ** Vocabulary of the statements *)

(** The events of sending one tweet to the channels that resolve. *)
Definition sends (w : world) (p : tweet) (chs : list Z) : list event :=
  map (fun c => Sent c (tweet_id p) (render p)) (filter (get_channel w) chs).

(** No send to a channel of [chs] that resolves raises. *)
Definition sends_succeed (w : world) (p : tweet) (chs : list Z) : Prop :=
  forall c, In c chs -> get_channel w c = true ->
            send_ok w c (render p) = true.

(** The database after the cursor of [id] went through the posts [l]. *)
Definition advance (id : Z) (l : list tweet) (d : database) : database :=
  fold_left (fun d p => set_cursor id (tweet_id p) d) l d.

(** What delivering the posts [l] emits when no send raises. *)
Definition deliveries (w : world) (id : Z) (chs : list Z) (l : list tweet)
    : list event :=
  flat_map (fun p => sends w p chs ++ [CursorSet id (tweet_id p)]) l.

(** The posts the Twitter call of [fetch_tweets] returns for an account
    whose timeline is [posts]. *)
Definition fetched (account : account_row) (posts : list tweet)
    : list tweet :=
  if truthy (last_tweet_id account)
  then firstn default_count
         (match last_tweet_id account with
          | Some s => filter (fun t => s <? tweet_id t) posts
          | None => posts
          end)
  else firstn 1 posts.

(** Post ids of the worlds considered are positive, as Twitter's are. *)
Definition positive_ids (w : world) : Prop :=
  forall u posts p, timeline w u = Some posts -> In p posts ->
                    0 < tweet_id p.

(** The primary key of [monitored_twitter_accounts]. *)
Definition unique_ids (d : database) : Prop :=
  NoDup (map acc_id (monitored_twitter_accounts d)).

(** The row the loop holds for the account is the row of the database. *)
Definition in_sync (d : database) (l : list account_row) : Prop :=
  forall a, In a l -> cursor_of d (acc_id a) = last_tweet_id a.

(** The same outcome over another database. *)
Definition on_db {A} (f : database -> database)
    (o : result A * database * list event) : result A * database * list event :=
  match o with
  | (r, d, ev) => (r, f d, ev)
  end.

(** ** More vocabulary *)

(** [l1] is [l2] with some elements left out. *)
Inductive subsequence {A : Type} : list A -> list A -> Prop :=
| subsequence_nil : subsequence [] []
| subsequence_keep x l1 l2 :
    subsequence l1 l2 -> subsequence (x :: l1) (x :: l2)
| subsequence_drop x l1 l2 :
    subsequence l1 l2 -> subsequence l1 (x :: l2).

(** The columns of an account row other than the cursor. *)
Definition account_key (r : account_row) : Z * Z * string :=
  (acc_id r, twitter_id r, twitter_handle r).

(** [d'] is [d] up to the [last_tweet_id] column. *)
Definition same_but_cursors (d d' : database) : Prop :=
  twitter_channels d' = twitter_channels d
  /\ twitter_channels_auto d' = twitter_channels_auto d
  /\ monitored_auto d' = monitored_auto d
  /\ twitter_account_channels d' = twitter_account_channels d
  /\ map account_key (monitored_twitter_accounts d')
     = map account_key (monitored_twitter_accounts d).

(** No send of [p] to a channel of [chs] that resolves raises (as a
    test). *)
Definition all_sends_ok (w : world) (p : tweet) (chs : list Z) : bool :=
  forallb (fun c => implb (get_channel w c) (send_ok w c (render p))) chs.

(** The posts of [l] before the first one a send of which raises. *)
Fixpoint served (w : world) (chs : list Z) (l : list tweet) : list tweet :=
  match l with
  | [] => []
  | p :: rest =>
      if all_sends_ok w p chs then p :: served w chs rest else []
  end.

(** The first post of [l] a send of which raises, and the posts after. *)
Fixpoint unserved (w : world) (chs : list Z) (l : list tweet)
    : list tweet :=
  match l with
  | [] => []
  | p :: rest => if all_sends_ok w p chs then unserved w chs rest else l
  end.

(** What sending [p] to [chs] emits, up to and including the first send
    that raises. *)
Fixpoint attempt (w : world) (p : tweet) (chs : list Z) : list event :=
  match chs with
  | [] => []
  | c :: rest =>
      if get_channel w c then
        if send_ok w c (render p)
        then Sent c (tweet_id p) (render p) :: attempt w p rest
        else [SendRaised c (tweet_id p)]
      else attempt w p rest
  end.

(** Starting from cursor [c], no update of the list sets the cursor below
    the value it had just before. *)
Fixpoint never_regresses (c : option Z) (updates : list Z) : Prop :=
  match updates with
  | [] => True
  | t :: rest => cursor_le c (Some t) /\ never_regresses (Some t) rest
  end.

(** The cursor after the updates of the list, starting from [c]. *)
Definition latest (c : option Z) (updates : list Z) : option Z :=
  fold_left (fun _ t => Some t) updates c.

(** Every timeline comes newest first. *)
Definition newest_first (w : world) : Prop :=
  forall u posts,
    timeline w u = Some posts ->
    StronglySorted (fun p q => tweet_id q <= tweet_id p) posts.

(** The cursor of the account of row [r] after a cycle in [w] that
    completed: the id of the first post fetched, if any. *)
Definition new_cursor (w : world) (r : account_row) : option Z :=
  match timeline w (twitter_id r) with
  | Some posts =>
      match fetched r posts with
      | p :: _ => Some (tweet_id p)
      | [] => last_tweet_id r
      end
  | None => last_tweet_id r
  end.

Definition settle (w : world) (r : account_row) : account_row :=
  mkAccount (acc_id r) (twitter_id r) (twitter_handle r) (new_cursor w r).

(** No cursor is set and nothing is sent. *)
Definition quiet (evs : list event) : Prop :=
  forall e, In e evs -> exists handle, e = FetchErrorPrinted handle.

(** The generated ids in use are below the counter. *)
Definition auto_increment_ok (d : database) : Prop :=
  (forall r, In r (monitored_twitter_accounts d) ->
             acc_id r < monitored_auto d)
  /\ (forall l, In l (twitter_account_channels d) ->
                fst l < monitored_auto d).

(** A photo, a video with three variants, and a payload carrying both. *)
Definition photo_media : media_object :=
  mkMedia "photo" (Some "https://pbs.example/a.jpg") None.

Definition video_media : media_object :=
  mkMedia "video" (Some "https://pbs.example/v.jpg")
    (Some [mkVariant (Some 120) "https://video.example/120.mp4";
           mkVariant (Some 800) "https://video.example/800.mp4";
           mkVariant None "https://video.example/playlist.m3u8";
           mkVariant (Some 800) "https://video.example/800b.mp4"]).

Definition media_tweet : v2_tweet :=
  mkV2 "Liftoff" "42" (Some (Some ["3_1"; "7_2"]))
       (Some [video_media; photo_media]).

Definition open_client : client := mkClient (fun _ => true) (fun _ _ => true).

(** Two keys, one medium. *)
Definition short_tweet : v2_tweet :=
  mkV2 "Liftoff" "42" (Some (Some ["3_1"; "7_2"])) (Some [photo_media]).

(** Two posts without a word of two letters; [nasa] has its cursor at 40
    and these two posts after it. *)
Definition mute_a : tweet := mkTweet 41 "nasa" "?!" false false [].
Definition mute_b : tweet := mkTweet 42 "nasa" "..." false false [].

Definition mute_db : database := set_cursors bootstrap_db (Some 40).

Definition mute_world : world :=
  mkWorld (timelines (Some [mute_b; mute_a]) (Some [])) lookup_user
          (fun _ => true) (fun _ _ => true).

(** [nasa] goes to channels 7 and 8 and has its cursor at 20; the send of
    post 23 to channel 8 raises, every other send works. *)
Definition partial_db : database := set_cursors two_channel_db (Some 20).

Definition partial_world : world :=
  mkWorld (timelines (Some [post_plain; post_reply; post_retweet]) (Some []))
          lookup_user (fun _ => true)
          (fun c m => negb ((c =? 8) && String.eqb m (render post_plain))).

(** Sending to channel 8 raises; channel 7 works. *)
Definition late_failing_world : world :=
  mkWorld (timelines (Some [post_plain]) (Some [])) lookup_user
          (fun _ => true) (fun c _ => negb (c =? 8)).

Definition closed_client : client :=
  mkClient (fun _ => false) (fun _ _ => true).

(** * Properties *)

(** ** The similarity engine *)

Section DedupeFacts.
Context {V : Vectorizer}.

Lemma any_similar_threshold_le (t1 t2 : Q) (row : list Q) :
  (t1 <= t2)%Q -> any_similar t2 row = true -> any_similar t1 row = true.
Proof.
  intros Hle. induction row as [|s row IH]; simpl; [easy|].
  destruct (Qle_bool t2 s) eqn:H2.
  - intros _. apply Qle_bool_iff in H2.
    assert (H1 : Qle_bool t1 s = true)
      by (apply Qle_bool_iff; eapply Qle_trans; eassumption).
    now rewrite H1.
  - intros H. destruct (Qle_bool t1 s); [reflexivity|auto].
Qed.

Lemma is_unique_threshold_le (t1 t2 : Q) (acc : list tweet) (x : tweet) :
  (t1 <= t2)%Q ->
  is_unique t1 acc x = Some true -> is_unique t2 acc x = Some true.
Proof.
  intros Hle. unfold is_unique. destruct acc as [|a acc]; [easy|].
  destruct (last_row_similarities _) as [row|]; [|easy].
  intros H. injection H as H. f_equal.
  destruct (any_similar t2 row) eqn:E; [|reflexivity].
  now rewrite (any_similar_threshold_le t1 t2 row Hle E) in H.
Qed.

(** The accumulator is a prefix of the result, and the loop run again
    on what it appended appends it again. *)
Lemma dedupe_loop_replay (t : Q) (tweets : list tweet) :
  forall acc out,
    dedupe_loop t tweets acc = Some out ->
    exists kept, out = acc ++ kept /\ dedupe_loop t kept acc = Some out.
Proof.
  induction tweets as [|x tweets IH]; simpl; intros acc out H.
  - injection H as <-. exists []. now rewrite app_nil_r.
  - destruct (is_unique t acc x) as [[|]|] eqn:E; [| |discriminate].
    + destruct (IH _ _ H) as (kept & -> & Hk).
      exists (x :: kept). split.
      * now rewrite <- app_assoc.
      * simpl. now rewrite E.
    + exact (IH _ _ H).
Qed.

(** Every accepted tweet was in the accumulator or in the input. *)
Lemma dedupe_loop_incl (t : Q) (tweets : list tweet) :
  forall acc out,
    dedupe_loop t tweets acc = Some out ->
    forall p, In p out -> In p acc \/ In p tweets.
Proof.
  induction tweets as [|x tweets IH]; simpl; intros acc out H p Hp.
  - injection H as <-. now left.
  - destruct (is_unique t acc x) as [[|]|]; [| |discriminate].
    + destruct (IH _ _ H p Hp) as [Hin|Hin]; [|now right; right].
      apply in_app_or in Hin. destruct Hin as [Hin|[<-|[]]]; auto.
    + destruct (IH _ _ H p Hp); auto.
Qed.

Lemma remove_similar_incl (t : Q) (tweets out : list tweet) :
  remove_similar_headlines_tfidf tweets t = Some out -> incl out tweets.
Proof.
  intros H p Hp. destruct (dedupe_loop_incl _ _ _ _ H p Hp) as [[]|]; auto.
Qed.

(** When the vectorizer never raises the loop returns. *)
Lemma dedupe_loop_total (Hfit : fit_total V) (t : Q) (tweets : list tweet) :
  forall acc, exists out, dedupe_loop t tweets acc = Some out.
Proof.
  induction tweets as [|x tweets IH]; intros acc; [now exists acc|].
  simpl. unfold is_unique. destruct acc as [|a acc]; [apply IH|].
  destruct (last_row_similarities _) as [row|] eqn:E;
    [|now apply Hfit in E].
  destruct (negb _); apply IH.
Qed.

Lemma remove_similar_nil (t : Q) :
  remove_similar_headlines_tfidf [] t = Some [].
Proof. reflexivity. Qed.

Lemma remove_similar_single (t : Q) (p : tweet) :
  remove_similar_headlines_tfidf [p] t = Some [p].
Proof. reflexivity. Qed.

Lemma remove_similar_pair (t : Q) (p q : tweet) :
  remove_similar_headlines_tfidf [p; q] t
  = match is_unique t [p] q with
    | None => None
    | Some true => Some [p; q]
    | Some false => Some [p]
    end.
Proof.
  unfold remove_similar_headlines_tfidf.
  change (dedupe_loop t [p; q] []) with
    (match is_unique t [p] q with
     | None => None
     | Some true => dedupe_loop t [] ([p] ++ [q])
     | Some false => dedupe_loop t [] [p]
     end).
  now destruct (is_unique t [p] q) as [[|]|].
Qed.

Lemma remove_similar_firstn_1 (t : Q) (posts : list tweet) :
  remove_similar_headlines_tfidf (firstn 1 posts) t
  = Some (firstn 1 posts).
Proof. destruct posts; reflexivity. Qed.

Lemma any_similar_zero (row : list Q) :
  row <> [] -> Forall (fun s => (0 <= s)%Q) row ->
  any_similar 0 row = true.
Proof.
  destruct row as [|s row]; [congruence|].
  intros _ H. inversion H as [|? ? Hs _]; subst. simpl.
  apply Qle_bool_iff in Hs. now rewrite Hs.
Qed.

Lemma dedupe_loop_zero (Hwf : row_well_formed V) (p : tweet)
    (rest : list tweet) :
  dedupe_loop 0 rest [p] = if forallb (fits p) rest then Some [p] else None.
Proof.
  induction rest as [|q rest IH]; [reflexivity|].
  simpl. unfold fits at 1.
  destruct (last_row_similarities _) as [row|] eqn:E; [|reflexivity].
  destruct (Hwf _ _ E) as [Hlen Hpos]. simpl in Hlen.
  rewrite any_similar_zero; [exact IH| |exact Hpos].
  intros ->. discriminate.
Qed.
End DedupeFacts.

(** C7, as amended.  For thresholds [t1 <= t2] a tweet accepted at [t1]
    against the tweets accepted so far is accepted at [t2] against the same
    tweets; hence for a batch of at most two posts what
    [remove_similar_headlines_tfidf] keeps at [t1] it keeps at [t2].  (For
    longer batches the two runs accumulate different tweets and the
    inclusion fails.) *)
Theorem dedupe_threshold_monotone_step (V : Vectorizer) (t1 t2 : Q)
    (Hle : (t1 <= t2)%Q) :
  (forall acc x,
      is_unique t1 acc x = Some true -> is_unique t2 acc x = Some true)
  /\ (forall p q out1,
         remove_similar_headlines_tfidf [p; q] t1 = Some out1 ->
         exists out2,
           remove_similar_headlines_tfidf [p; q] t2 = Some out2
           /\ incl out1 out2).
Proof.
  split.
  - intros acc x. now apply is_unique_threshold_le.
  - intros p q out1. rewrite !remove_similar_pair.
    destruct (is_unique t1 [p] q) as [[|]|] eqn:E1.
    + rewrite (is_unique_threshold_le t1 t2 _ _ Hle E1).
      intros H. injection H as <-. exists [p; q]. split; [easy|].
      apply incl_refl.
    + intros H. injection H as <-.
      assert (E2 : is_unique t2 [p] q <> None).
      { revert E1. unfold is_unique.
        now destruct (last_row_similarities _). }
      destruct (is_unique t2 [p] q) as [[|]|]; [| |congruence].
      * exists [p; q]. split; [reflexivity|]. intros x [<-|[]]. now left.
      * exists [p]. split; [reflexivity|]. apply incl_refl.
    + discriminate.
Qed.

(** C8.  Idempotence: running [remove_similar_headlines_tfidf] on its own
    output returns that output again; when the first run raises, so does
    the composition. *)
Theorem dedupe_idempotent (V : Vectorizer) (tweets : list tweet) (t : Q) :
  match remove_similar_headlines_tfidf tweets t with
  | Some out => remove_similar_headlines_tfidf out t
  | None => None
  end = remove_similar_headlines_tfidf tweets t.
Proof.
  destruct (remove_similar_headlines_tfidf tweets t) as [out|] eqn:E;
    [|reflexivity].
  destruct (dedupe_loop_replay _ _ _ _ E) as (kept & -> & Hk).
  exact Hk.
Qed.

(** C9.  Edge cases: for every threshold the empty batch gives the empty
    batch and a batch of one post gives that post; at threshold 0 only the
    first post of a batch is ever kept: every later post is compared with
    it, reaches a similarity of at least 0 and is dropped (the call returns
    the first post alone unless the vectorizer raises on one of the
    pairs, in which case nothing is returned). *)
Theorem dedupe_edge_cases (V : Vectorizer) (Hwf : row_well_formed V) :
  (forall t, remove_similar_headlines_tfidf [] t = Some [])
  /\ (forall t p, remove_similar_headlines_tfidf [p] t = Some [p])
  /\ (forall p rest,
         remove_similar_headlines_tfidf (p :: rest) 0
         = if forallb (fits p) rest then Some [p] else None)
  /\ (forall tweets out p,
         remove_similar_headlines_tfidf tweets 0 = Some out ->
         In p out -> hd_error tweets = Some p /\ out = [p]).
Proof.
  split; [reflexivity|]. split; [reflexivity|].
  assert (H0 : forall p rest,
             remove_similar_headlines_tfidf (p :: rest) 0
             = if forallb (fits p) rest then Some [p] else None).
  { intros p rest. unfold remove_similar_headlines_tfidf. simpl.
    now apply dedupe_loop_zero. }
  split; [exact H0|].
  intros [|x tweets] out p H Hin.
  - injection H as <-. destruct Hin.
  - rewrite H0 in H. destruct (forallb _ _); [|discriminate].
    injection H as <-. destruct Hin as [<-|[]]. now split.
Qed.

(** ** Loops and events *)

Lemma for_each_cons {A} (x : A) (l : list A) (body : A -> io unit)
    (d : database) :
  for_each (x :: l) body d
  = match body x d with
    | (Ok _, d1, ev1) =>
        match for_each l body d1 with
        | (r, d2, ev2) => (r, d2, ev1 ++ ev2)
        end
    | (Raise e, d1, ev1) => (Raise e, d1, ev1)
    end.
Proof. reflexivity. Qed.

Lemma cursor_updates_app (id : Z) (ev1 ev2 : list event) :
  cursor_updates id (ev1 ++ ev2)
  = cursor_updates id ev1 ++ cursor_updates id ev2.
Proof.
  induction ev1 as [|e ev1 IH]; [reflexivity|].
  destruct e; simpl; auto. destruct (_ =? _); simpl; now rewrite IH.
Qed.

Lemma channels_sent_app (tid : Z) (ev1 ev2 : list event) :
  channels_sent tid (ev1 ++ ev2)
  = channels_sent tid ev1 ++ channels_sent tid ev2.
Proof.
  induction ev1 as [|e ev1 IH]; [reflexivity|].
  destruct e; simpl; auto. destruct (_ =? _); simpl; now rewrite IH.
Qed.

Lemma channels_sent_sends (w : world) (p : tweet) (chs : list Z) :
  channels_sent (tweet_id p) (sends w p chs) = filter (get_channel w) chs.
Proof.
  unfold sends. induction (filter (get_channel w) chs) as [|c l IH];
    [reflexivity|].
  simpl. now rewrite Z.eqb_refl, IH.
Qed.

Lemma cursor_updates_sends (w : world) (p : tweet) (chs : list Z) (id : Z) :
  cursor_updates id (sends w p chs) = [].
Proof.
  unfold sends. now induction (filter (get_channel w) chs).
Qed.

Lemma send_loop_ok (w : world) (p : tweet) (chs : list Z) (d : database) :
  sends_succeed w p chs ->
  for_each chs (send_to_channel w p) d = (Ok tt, d, sends w p chs).
Proof.
  induction chs as [|c chs IH]; intros H; [reflexivity|].
  rewrite for_each_cons. unfold send_to_channel at 1, sends. simpl filter.
  assert (Hrest : sends_succeed w p chs)
    by (intros c' Hc'; apply H; now right).
  destruct (get_channel w c) eqn:Hc.
  - rewrite (H c (or_introl eq_refl) Hc). unfold emit.
    now rewrite (IH Hrest).
  - unfold ret. now rewrite (IH Hrest).
Qed.

(** Whatever happens, the send loop leaves the database alone, sets no
    cursor, and ends normally or with the error of [channel.send]. *)
Lemma send_loop_outcome (w : world) (p : tweet) (chs : list Z)
    (d : database) :
  exists r ev,
    for_each chs (send_to_channel w p) d = (r, d, ev)
    /\ (r = Ok tt \/ r = Raise DiscordError)
    /\ (forall id, cursor_updates id ev = []).
Proof.
  induction chs as [|c chs IH].
  - exists (Ok tt), []. repeat split; auto.
  - rewrite for_each_cons. unfold send_to_channel at 1.
    destruct IH as (r & ev & E & Hr & Hev).
    destruct (get_channel w c).
    + destruct (send_ok w c (render p)).
      * unfold emit. rewrite E. eexists _, _. split; [reflexivity|].
        split; [exact Hr|]. intros id. simpl. apply Hev.
      * cbv [bind emit raise]. simpl. eexists _, _.
        split; [reflexivity|]. split; [now right|reflexivity].
    + unfold ret. rewrite E. eexists _, _. split; [reflexivity|].
      split; [exact Hr|exact Hev].
Qed.

Lemma deliver_tweet_unfold (w : world) (id : Z) (p : tweet) (d : database) :
  deliver_tweet w id p d
  = match for_each (channel_ids_of d id) (send_to_channel w p) d with
    | (Ok _, d1, ev1) =>
        (Ok tt, set_cursor id (tweet_id p) d1,
         ev1 ++ [CursorSet id (tweet_id p)])
    | (Raise e, d1, ev1) => (Raise e, d1, ev1)
    end.
Proof.
  unfold deliver_tweet, bind, select_channel_ids, update_last_tweet_id.
  simpl.
  destruct (for_each _ _ d) as [[[[]|e] d1] ev1]; reflexivity.
Qed.

Lemma deliver_tweet_ok (w : world) (id : Z) (p : tweet) (d : database) :
  sends_succeed w p (channel_ids_of d id) ->
  deliver_tweet w id p d
  = (Ok tt, set_cursor id (tweet_id p) d,
     sends w p (channel_ids_of d id) ++ [CursorSet id (tweet_id p)]).
Proof.
  intros H. rewrite deliver_tweet_unfold. now rewrite (send_loop_ok _ _ _ _ H).
Qed.

(** One tweet: either every send returned and the cursor was set, once and
    last, or a send raised and the cursor was not touched. *)
Lemma deliver_tweet_outcome (w : world) (id : Z) (p : tweet)
    (d : database) :
  let o := deliver_tweet w id p d in
  (result_of o = Ok tt /\ db_of o = set_cursor id (tweet_id p) d
   /\ cursor_updates id (events_of o) = [tweet_id p])
  \/ (result_of o = Raise DiscordError /\ db_of o = d
      /\ cursor_updates id (events_of o) = []).
Proof.
  cbv zeta. rewrite deliver_tweet_unfold.
  destruct (send_loop_outcome w p (channel_ids_of d id) d)
    as (r & ev & E & [->| ->] & Hev); rewrite E.
  - left. repeat split. unfold events_of. simpl.
    rewrite cursor_updates_app, Hev. simpl. now rewrite Z.eqb_refl.
  - right. repeat split. apply Hev.
Qed.

Lemma deliver_all_ok (w : world) (id : Z) (l : list tweet) :
  forall d,
    (forall p, In p l -> sends_succeed w p (channel_ids_of d id)) ->
    for_each l (deliver_tweet w id) d
    = (Ok tt, advance id l d, deliveries w id (channel_ids_of d id) l).
Proof.
  induction l as [|p l IH]; intros d H; [reflexivity|].
  rewrite for_each_cons, deliver_tweet_ok by (apply H; now left).
  rewrite IH by (intros q Hq; apply (H q); now right).
  reflexivity.
Qed.

Lemma deliver_all_result (w : world) (id : Z) (l : list tweet) :
  forall d,
    let o := for_each l (deliver_tweet w id) d in
    result_of o = Ok tt \/ result_of o = Raise DiscordError.
Proof.
  induction l as [|p l IH]; intros d; [now left|].
  cbv zeta. rewrite for_each_cons.
  destruct (deliver_tweet_outcome w id p d) as [(Hr & Hd & _)|(Hr & _)];
    destruct (deliver_tweet w id p d) as [[r d1] ev1];
    unfold result_of in Hr; simpl in Hr; subst r.
  - specialize (IH d1). cbv zeta in IH.
    destruct (for_each l _ d1) as [[r2 d2] ev2]. exact IH.
  - now right.
Qed.

(** When the loop over the posts ends normally the cursor was set to each
    of them, once, in order. *)
Lemma deliver_all_updates (w : world) (id : Z) (l : list tweet) :
  forall d,
    let o := for_each l (deliver_tweet w id) d in
    result_of o = Ok tt ->
    cursor_updates id (events_of o) = map tweet_id l.
Proof.
  induction l as [|p l IH]; intros d; [reflexivity|].
  cbv zeta. rewrite for_each_cons.
  destruct (deliver_tweet_outcome w id p d) as [(Hr & _ & Hc)|(Hr & _)];
    destruct (deliver_tweet w id p d) as [[r d1] ev1];
    unfold result_of, events_of in *; simpl in *; subst r.
  - specialize (IH d1). cbv zeta in IH.
    destruct (for_each l _ d1) as [[r2 d2] ev2]. simpl in *.
    intros H. rewrite cursor_updates_app, Hc, (IH H). reflexivity.
  - discriminate.
Qed.

(** ** One account *)

Lemma fetch_tweets_unfold (w : world) (a : account_row) (d : database) :
  fetch_tweets w a d
  = match timeline w (twitter_id a) with
    | None => (Raise TweepError, d, [])
    | Some posts => (Ok (fetched a posts), d, [])
    end.
Proof.
  unfold fetch_tweets, fetched, user_timeline.
  destruct (truthy (last_tweet_id a));
    destruct (timeline w (twitter_id a)); reflexivity.
Qed.

Lemma in_firstn {A} (n : nat) (l : list A) (x : A) :
  In x (firstn n l) -> In x l.
Proof.
  intros H. rewrite <- (firstn_skipn n l). apply in_or_app. now left.
Qed.

Lemma fetched_in (a : account_row) (posts : list tweet) (p : tweet) :
  In p (fetched a posts) ->
  In p posts
  /\ (truthy (last_tweet_id a) = true ->
      exists c, last_tweet_id a = Some c /\ c < tweet_id p).
Proof.
  unfold fetched. destruct (truthy (last_tweet_id a)) eqn:T.
  - intros H. apply in_firstn in H.
    destruct (last_tweet_id a) as [c|]; [|discriminate].
    apply filter_In in H. destruct H as [Hin Hlt]. split; [exact Hin|].
    intros _. exists c. split; [reflexivity|]. now apply Z.ltb_lt.
  - intros H. apply in_firstn in H. split; [exact H|discriminate].
Qed.

Section StreamFacts.
Context {V : Vectorizer}.

Lemma process_account_unfold (w : world) (a : account_row)
    (d : database) :
  process_account w a d
  = match timeline w (twitter_id a) with
    | None => (Ok tt, d, [FetchErrorPrinted (twitter_handle a)])
    | Some posts =>
        match remove_similar_headlines_tfidf
                (fetched a posts) default_similarity_threshold with
        | None => (Raise ValueError, d, [])
        | Some unique_tweets =>
            for_each (rev unique_tweets) (deliver_tweet w (acc_id a)) d
        end
    end.
Proof.
  unfold process_account, except_tweep_error, bind.
  rewrite fetch_tweets_unfold.
  destruct (timeline w (twitter_id a)) as [posts|]; [|reflexivity].
  destruct (remove_similar_headlines_tfidf _ _) as [u|]; [|reflexivity].
  simpl.
  pose proof (deliver_all_result w (acc_id a) (rev u) d) as Hr.
  cbv zeta in Hr.
  destruct (for_each (rev u) _ d) as [[r d2] ev2].
  unfold result_of in Hr. simpl in Hr.
  destruct Hr as [-> | ->]; reflexivity.
Qed.
End StreamFacts.

(** ** Cursors *)

Lemma cursor_le_refl (c : option Z) : cursor_le c c.
Proof. destruct c; simpl; [lia|exact I]. Qed.

Lemma cursor_le_trans (c1 c2 c3 : option Z) :
  cursor_le c1 c2 -> cursor_le c2 c3 -> cursor_le c1 c3.
Proof. destruct c1, c2, c3; simpl; try easy; lia. Qed.

Lemma acc_id_set_last (id tid : Z) (r : account_row) :
  acc_id (set_last_tweet_id id tid r) = acc_id r.
Proof. unfold set_last_tweet_id. now destruct (acc_id r =? id). Qed.

Lemma ids_set_cursor (id tid : Z) (d : database) :
  map acc_id (monitored_twitter_accounts (set_cursor id tid d))
  = map acc_id (monitored_twitter_accounts d).
Proof.
  simpl. rewrite map_map. apply map_ext. intros r. apply acc_id_set_last.
Qed.

Lemma find_set_last (id tid id' : Z) (l : list account_row) :
  find (fun r => acc_id r =? id') (map (set_last_tweet_id id tid) l)
  = option_map (set_last_tweet_id id tid) (find (fun r => acc_id r =? id') l).
Proof.
  induction l as [|r l IH]; [reflexivity|].
  simpl. rewrite acc_id_set_last. now destruct (acc_id r =? id').
Qed.

Lemma cursor_of_set_cursor_other (id tid id' : Z) (d : database) :
  id' <> id -> cursor_of (set_cursor id tid d) id' = cursor_of d id'.
Proof.
  intros Hne. unfold cursor_of. simpl. rewrite find_set_last.
  destruct (find _ _) as [r|] eqn:E; [|reflexivity].
  apply find_some in E. destruct E as [_ E]. apply Z.eqb_eq in E.
  simpl. unfold set_last_tweet_id.
  destruct (acc_id r =? id) eqn:E'; [|reflexivity].
  apply Z.eqb_eq in E'. congruence.
Qed.

Lemma cursor_of_set_cursor_same (id tid : Z) (d : database) :
  cursor_of (set_cursor id tid d) id = Some tid
  \/ (cursor_of (set_cursor id tid d) id = None /\ cursor_of d id = None).
Proof.
  unfold cursor_of. simpl. rewrite find_set_last.
  destruct (find _ _) as [r|] eqn:E.
  - left. apply find_some in E. destruct E as [_ E].
    simpl. unfold set_last_tweet_id. now rewrite E.
  - now right.
Qed.

Lemma set_cursor_twice (id t1 t2 : Z) (d : database) :
  set_cursor id t2 (set_cursor id t1 d) = set_cursor id t2 d.
Proof.
  unfold set_cursor, with_accounts. simpl. f_equal.
  rewrite map_map. apply map_ext. intros r. unfold set_last_tweet_id.
  destruct (acc_id r =? id) eqn:E; simpl; now rewrite E.
Qed.

(** After the loop over the posts the database is the one before, or the
    one before with the cursor at one of the posts. *)
Lemma deliver_all_db (w : world) (id : Z) (l : list tweet) :
  forall d,
    let o := for_each l (deliver_tweet w id) d in
    db_of o = d
    \/ exists p, In p l /\ db_of o = set_cursor id (tweet_id p) d.
Proof.
  induction l as [|p l IH]; intros d; [now left|].
  cbv zeta. rewrite for_each_cons.
  destruct (deliver_tweet_outcome w id p d) as [(Hr & Hd & _)|(Hr & Hd & _)];
    destruct (deliver_tweet w id p d) as [[r d1] ev1];
    unfold result_of, db_of in *; simpl in *; subst r d1.
  - specialize (IH (set_cursor id (tweet_id p) d)). cbv zeta in IH.
    destruct (for_each l _ _) as [[r2 d2] ev2]. simpl in *.
    right. destruct IH as [-> | (q & Hq & ->)].
    + exists p. auto.
    + exists q. split; [auto|]. apply set_cursor_twice.
  - now left.
Qed.

Section CursorFacts.
Context {V : Vectorizer}.

Lemma process_account_db (w : world) (a : account_row) (d : database) :
  let o := process_account w a d in
  db_of o = d
  \/ exists posts p,
       timeline w (twitter_id a) = Some posts
       /\ In p (fetched a posts)
       /\ db_of o = set_cursor (acc_id a) (tweet_id p) d.
Proof.
  cbv zeta. rewrite process_account_unfold.
  destruct (timeline w (twitter_id a)) as [posts|] eqn:T; [|now left].
  destruct (remove_similar_headlines_tfidf _ _) as [u|] eqn:U;
    [|now left].
  destruct (deliver_all_db w (acc_id a) (rev u) d) as [H|(p & Hp & H)];
    [now left|].
  right. exists posts, p. split; [reflexivity|]. split; [|exact H].
  apply (remove_similar_incl _ _ _ U). now apply in_rev.
Qed.

Lemma process_account_ids (w : world) (a : account_row) (d : database) :
  map acc_id (monitored_twitter_accounts (db_of (process_account w a d)))
  = map acc_id (monitored_twitter_accounts d).
Proof.
  destruct (process_account_db w a d) as [-> | (? & ? & _ & _ & ->)];
    [reflexivity|apply ids_set_cursor].
Qed.

Lemma process_account_other (w : world) (a : account_row) (d : database)
    (id' : Z) :
  id' <> acc_id a ->
  cursor_of (db_of (process_account w a d)) id' = cursor_of d id'.
Proof.
  intros Hne.
  destruct (process_account_db w a d) as [-> | (? & ? & _ & _ & ->)];
    [reflexivity|now apply cursor_of_set_cursor_other].
Qed.

Lemma process_account_cursor_le (w : world) (a : account_row)
    (d : database) (id' : Z) :
  positive_ids w ->
  cursor_of d (acc_id a) = last_tweet_id a ->
  cursor_le (cursor_of d id')
            (cursor_of (db_of (process_account w a d)) id').
Proof.
  intros Hpos Hsync.
  destruct (Z.eq_dec id' (acc_id a)) as [-> | Hne];
    [|rewrite process_account_other by exact Hne; apply cursor_le_refl].
  destruct (process_account_db w a d) as [-> | (posts & p & T & Hp & ->)];
    [apply cursor_le_refl|].
  destruct (cursor_of_set_cursor_same (acc_id a) (tweet_id p) d)
    as [-> | [-> ->]]; [|exact I].
  rewrite Hsync. apply fetched_in in Hp. destruct Hp as [Hin Hnew].
  destruct (last_tweet_id a) as [c|] eqn:C; [|exact I].
  simpl. destruct (truthy (Some c)) eqn:Tr.
  - destruct (Hnew eq_refl) as (c' & Hc' & Hlt).
    injection Hc' as <-. lia.
  - simpl in Tr. apply negb_false_iff, Z.eqb_eq in Tr. subst c.
    specialize (Hpos _ _ _ T Hin). lia.
Qed.

Lemma accounts_loop_ids (w : world) (l : list account_row) :
  forall d,
    map acc_id
        (monitored_twitter_accounts
           (db_of (for_each l (process_account w) d)))
    = map acc_id (monitored_twitter_accounts d).
Proof.
  induction l as [|a l IH]; intros d; [reflexivity|].
  rewrite for_each_cons.
  pose proof (process_account_ids w a d) as H1.
  destruct (process_account w a d) as [[[[]|e] d1] ev1];
    unfold db_of in *; simpl in *; [|exact H1].
  specialize (IH d1). destruct (for_each l _ d1) as [[r2 d2] ev2].
  simpl in *. congruence.
Qed.

Lemma accounts_loop_cursor_le (w : world) (l : list account_row) :
  positive_ids w ->
  forall d,
    NoDup (map acc_id l) -> in_sync d l ->
    forall id',
      cursor_le (cursor_of d id')
        (cursor_of (db_of (for_each l (process_account w) d)) id').
Proof.
  intros Hpos. induction l as [|a l IH]; intros d Hnd Hsync id';
    [apply cursor_le_refl|].
  rewrite for_each_cons.
  pose proof (process_account_cursor_le w a d id' Hpos
                (Hsync a (or_introl eq_refl))) as H1.
  assert (Hsync' : in_sync (db_of (process_account w a d)) l).
  { intros b Hb. rewrite process_account_other; [apply Hsync; now right|].
    inversion Hnd as [|? ? Hnotin _]; subst. intros Heq.
    apply Hnotin. rewrite <- Heq. now apply in_map. }
  inversion Hnd as [|? ? _ Hnd']; subst.
  destruct (process_account w a d) as [[[[]|e] d1] ev1];
    unfold db_of in *; simpl in *; [|exact H1].
  specialize (IH d1 Hnd' Hsync' id').
  destruct (for_each l _ d1) as [[r2 d2] ev2]. simpl in *.
  eapply cursor_le_trans; eassumption.
Qed.

Lemma in_sync_initial (d : database) :
  unique_ids d -> in_sync d (monitored_twitter_accounts d).
Proof.
  unfold unique_ids, in_sync, cursor_of.
  induction (monitored_twitter_accounts d) as [|r l IH];
    intros Hnd a Hin; [destruct Hin|].
  simpl. inversion Hnd as [|? ? Hnotin Hnd']; subst.
  destruct Hin as [-> | Hin].
  - now rewrite Z.eqb_refl.
  - destruct (acc_id r =? acc_id a) eqn:E; [|now apply IH].
    apply Z.eqb_eq in E. exfalso. apply Hnotin. rewrite E.
    now apply in_map.
Qed.

Lemma stream_tweets_unfold (w : world) (d : database) :
  stream_tweets w d
  = for_each (monitored_twitter_accounts d) (process_account w) d.
Proof.
  unfold stream_tweets, bind, select_accounts.
  now destruct (for_each _ _ d) as [[r d2] ev2].
Qed.

Lemma stream_tweets_cursor_le (w : world) (d : database) (id : Z) :
  positive_ids w -> unique_ids d ->
  cursor_le (cursor_of d id) (cursor_of (db_of (stream_tweets w d)) id).
Proof.
  intros Hpos Hnd. rewrite stream_tweets_unfold.
  apply accounts_loop_cursor_le; auto. now apply in_sync_initial.
Qed.

Lemma stream_tweets_unique_ids (w : world) (d : database) :
  unique_ids d -> unique_ids (db_of (stream_tweets w d)).
Proof.
  unfold unique_ids. rewrite stream_tweets_unfold.
  now rewrite accounts_loop_ids.
Qed.

Lemma tweet_streamer_cursor_le (ws : list world) :
  Forall positive_ids ws ->
  forall d id,
    unique_ids d ->
    cursor_le (cursor_of d id) (cursor_of (fst (tweet_streamer ws d)) id).
Proof.
  induction 1 as [|w ws Hw _ IH]; intros d id Hnd; [apply cursor_le_refl|].
  simpl.
  pose proof (stream_tweets_cursor_le w d id Hw Hnd) as H1.
  pose proof (stream_tweets_unique_ids w d Hnd) as H2.
  destruct (stream_tweets w d) as [[r d1] ev1].
  unfold db_of in *; simpl in *.
  specialize (IH d1 id H2).
  destruct (tweet_streamer ws d1) as [d2 ev2]. simpl in *.
  eapply cursor_le_trans; eassumption.
Qed.

Lemma tweet_streamer_unique_ids (ws : list world) :
  forall d, unique_ids d -> unique_ids (fst (tweet_streamer ws d)).
Proof.
  induction ws as [|w ws IH]; intros d Hnd; [exact Hnd|].
  simpl. pose proof (stream_tweets_unique_ids w d Hnd) as H2.
  destruct (stream_tweets w d) as [[r d1] ev1].
  unfold db_of in H2; simpl in H2. specialize (IH d1 H2).
  now destruct (tweet_streamer ws d1) as [d2 ev2].
Qed.

Lemma tweet_streamer_app (ws1 ws2 : list world) :
  forall d,
    fst (tweet_streamer (ws1 ++ ws2) d)
    = fst (tweet_streamer ws2 (fst (tweet_streamer ws1 d))).
Proof.
  induction ws1 as [|w ws1 IH]; intros d; [reflexivity|].
  simpl. destruct (stream_tweets w d) as [[r d1] ev1].
  specialize (IH d1).
  destruct (tweet_streamer (ws1 ++ ws2) d1) as [d2 ev2].
  destruct (tweet_streamer ws1 d1) as [d3 ev3]. exact IH.
Qed.

(** The cursor after more cycles is never behind the cursor after fewer. *)
Lemma tweet_streamer_monotone (before after : list world) (d : database)
    (id : Z) :
  Forall positive_ids (before ++ after) -> unique_ids d ->
  cursor_le (cursor_of (fst (tweet_streamer before d)) id)
            (cursor_of (fst (tweet_streamer (before ++ after) d)) id).
Proof.
  intros Hpos Hnd. rewrite tweet_streamer_app.
  apply tweet_streamer_cursor_le.
  - apply Forall_app in Hpos. tauto.
  - now apply tweet_streamer_unique_ids.
Qed.
End CursorFacts.

(** ** The fanout does not read [twitter_channels] *)

Lemma send_loop_any_db (w : world) (p : tweet) (chs : list Z)
    (d d' : database) :
  for_each chs (send_to_channel w p) d'
  = on_db (fun _ => d') (for_each chs (send_to_channel w p) d).
Proof.
  induction chs as [|c chs IH]; [reflexivity|].
  rewrite !for_each_cons. unfold send_to_channel at 1 3.
  destruct (get_channel w c).
  - destruct (send_ok w c (render p)); [|reflexivity].
    unfold emit. rewrite IH.
    now destruct (for_each chs _ d) as [[r2 d2] ev2].
  - unfold ret. rewrite IH.
    now destruct (for_each chs _ d) as [[r2 d2] ev2].
Qed.

Lemma send_loop_events (w : world) (p : tweet) (chs : list Z)
    (d : database) (c t : Z) (m : string) :
  In (Sent c t m) (events_of (for_each chs (send_to_channel w p) d)) ->
  t = tweet_id p /\ In c chs /\ get_channel w c = true.
Proof.
  induction chs as [|c0 chs IH]; [intros []|].
  rewrite for_each_cons. unfold send_to_channel at 1.
  destruct (get_channel w c0) eqn:G.
  - destruct (send_ok w c0 (render p)).
    + unfold emit. destruct (for_each chs _ d) as [[r2 d2] ev2].
      unfold events_of in *. simpl in *.
      intros [H|H].
      * injection H as <- <- <-. auto.
      * destruct (IH H) as (? & ? & ?). auto.
    + cbv. intros [H|[]]. discriminate.
  - unfold ret. destruct (for_each chs _ d) as [[r2 d2] ev2].
    unfold events_of in *. simpl in *.
    intros H. destruct (IH H) as (? & ? & ?). auto.
Qed.

Section TableFacts.
Context {V : Vectorizer}.
Variables (rows : list channel_row) (auto : Z).

Let swap := with_twitter_channels rows auto.

Lemma deliver_tweet_swap (w : world) (id : Z) (p : tweet) (d : database) :
  deliver_tweet w id p (swap d) = on_db swap (deliver_tweet w id p d).
Proof.
  rewrite !deliver_tweet_unfold.
  change (channel_ids_of (swap d) id) with (channel_ids_of d id).
  rewrite (send_loop_any_db w p _ d (swap d)).
  destruct (send_loop_outcome w p (channel_ids_of d id) d)
    as (r & ev & E & _).
  rewrite E. now destruct r as [[]|e].
Qed.

Lemma deliver_all_swap (w : world) (id : Z) (l : list tweet) :
  forall d,
    for_each l (deliver_tweet w id) (swap d)
    = on_db swap (for_each l (deliver_tweet w id) d).
Proof.
  induction l as [|p l IH]; intros d; [reflexivity|].
  rewrite !for_each_cons, deliver_tweet_swap.
  destruct (deliver_tweet w id p d) as [[[[]|e] d1] ev1]; simpl;
    [|reflexivity].
  rewrite IH. now destruct (for_each l _ d1) as [[r2 d2] ev2].
Qed.

Lemma process_account_swap (w : world) (a : account_row) (d : database) :
  process_account w a (swap d) = on_db swap (process_account w a d).
Proof.
  rewrite !process_account_unfold.
  destruct (timeline w (twitter_id a)) as [posts|]; [|reflexivity].
  destruct (remove_similar_headlines_tfidf _ _) as [u|]; [|reflexivity].
  apply deliver_all_swap.
Qed.

Lemma accounts_loop_swap (w : world) (l : list account_row) :
  forall d,
    for_each l (process_account w) (swap d)
    = on_db swap (for_each l (process_account w) d).
Proof.
  induction l as [|a l IH]; intros d; [reflexivity|].
  rewrite !for_each_cons, process_account_swap.
  destruct (process_account w a d) as [[[[]|e] d1] ev1]; simpl;
    [|reflexivity].
  rewrite IH. now destruct (for_each l _ d1) as [[r2 d2] ev2].
Qed.

Lemma stream_tweets_swap (w : world) (d : database) :
  stream_tweets w (swap d) = on_db swap (stream_tweets w d).
Proof.
  rewrite !stream_tweets_unfold. apply accounts_loop_swap.
Qed.
End TableFacts.

Section LoopFacts.
Context {V : Vectorizer}.

Lemma accounts_loop_other (w : world) (l : list account_row) (id : Z) :
  ~ In id (map acc_id l) ->
  forall d,
    cursor_of (db_of (for_each l (process_account w) d)) id
    = cursor_of d id.
Proof.
  induction l as [|a l IH]; intros Hnot d; [reflexivity|].
  rewrite for_each_cons.
  assert (Hne : id <> acc_id a) by (intros ->; apply Hnot; now left).
  pose proof (process_account_other w a d id Hne) as H1.
  destruct (process_account w a d) as [[[[]|e] d1] ev1];
    unfold db_of in *; simpl in *; [|exact H1].
  assert (Hnot' : ~ In id (map acc_id l))
    by (intros H; apply Hnot; now right).
  specialize (IH Hnot' d1).
  destruct (for_each l _ d1) as [[r2 d2] ev2]. simpl in *. congruence.
Qed.
End LoopFacts.

(** ** Filter and fanout *)

Lemma deliver_tweet_channels (w : world) (d : database) (id : Z) (p : tweet) :
  sends_succeed w p (channel_ids_of d id) ->
  channels_sent (tweet_id p) (events_of (deliver_tweet w id p d))
  = filter (get_channel w) (channel_ids_of d id).
Proof.
  intros Hsend. rewrite deliver_tweet_ok by exact Hsend.
  unfold events_of. simpl.
  rewrite channels_sent_app, channels_sent_sends. simpl.
  apply app_nil_r.
Qed.


(** ** The threshold of the dedupe pass *)

(** C3, as amended.  The dedupe pass of the polling cycle always runs at
    the default threshold 0.4 of [remove_similar_headlines_tfidf]: the
    posts whose cursor updates a completed account shows are those the
    function keeps at 0.4, and replacing the stored subscription rows
    (their [similarity_threshold] included) changes neither the result nor
    the events of a cycle. *)
Theorem dedupe_uses_default_threshold (V : Vectorizer) (w : world)
    (d : database) (a : account_row) (posts : list tweet)
    (Hfetch : timeline w (twitter_id a) = Some posts)
    (Hdone : result_of (process_account w a d) = Ok tt) :
  (exists unique_tweets,
      remove_similar_headlines_tfidf (fetched a posts) (4 # 10)
      = Some unique_tweets
      /\ cursor_updates (acc_id a) (events_of (process_account w a d))
         = map tweet_id (rev unique_tweets))
  /\ (forall rows auto,
         stream_tweets w (with_twitter_channels rows auto d)
         = on_db (with_twitter_channels rows auto) (stream_tweets w d)).
Proof.
  split; [|intros rows auto; apply stream_tweets_swap].
  rewrite process_account_unfold, Hfetch in Hdone |- *.
  change default_similarity_threshold with (4 # 10) in *.
  destruct (remove_similar_headlines_tfidf _ _) as [u|]; [|discriminate].
  exists u. split; [reflexivity|]. now apply deliver_all_updates.
Qed.

(** ** Failures *)

(** C4, as amended.  When the Twitter call for an account raises
    [TweepError] (tweepy's rate-limit error is one) the error is printed
    and the loop goes on: the accounts after it are processed exactly as if
    the loop had started with them, and the cursor of the failed account is
    what it was.  (An exception raised by a send or by the vectorizer is
    not caught inside the cycle.) *)
Theorem fetch_error_isolated (V : Vectorizer) (w : world) (d : database)
    (a : account_row) (rest : list account_row)
    (Hfetch : timeline w (twitter_id a) = None)
    (Hid : ~ In (acc_id a) (map acc_id rest)) :
  for_each (a :: rest) (process_account w) d
  = match for_each rest (process_account w) d with
    | (r, d', ev) => (r, d', FetchErrorPrinted (twitter_handle a) :: ev)
    end
  /\ cursor_of (db_of (for_each (a :: rest) (process_account w) d)) (acc_id a)
     = cursor_of d (acc_id a).
Proof.
  assert (E : for_each (a :: rest) (process_account w) d
              = match for_each rest (process_account w) d with
                | (r, d', ev) =>
                    (r, d', FetchErrorPrinted (twitter_handle a) :: ev)
                end).
  { rewrite for_each_cons, process_account_unfold, Hfetch.
    now destruct (for_each rest _ d) as [[r d'] ev]. }
  split; [exact E|]. rewrite E.
  pose proof (accounts_loop_other w rest (acc_id a) Hid d) as H.
  now destruct (for_each rest _ d) as [[r d'] ev].
Qed.

(** C5, as amended.  A linked channel that does not resolve
    ([bot.get_channel] finds nothing) is skipped: the post still goes to
    every sibling channel that resolves and the cursor advances to the
    post.  (A send that raises ends the loop instead.) *)
Theorem absent_channel_does_not_block (w : world) (d : database) (id : Z)
    (p : tweet) (s1 s2 : Z)
    (H1 : In s1 (channel_ids_of d id))
    (H2 : In s2 (channel_ids_of d id))
    (Habsent : get_channel w s1 = false)
    (Hpresent : get_channel w s2 = true)
    (Hsend : sends_succeed w p (channel_ids_of d id)) :
  result_of (deliver_tweet w id p d) = Ok tt
  /\ In s2 (channels_sent (tweet_id p) (events_of (deliver_tweet w id p d)))
  /\ ~ In s1 (channels_sent (tweet_id p)
                            (events_of (deliver_tweet w id p d)))
  /\ cursor_updates id (events_of (deliver_tweet w id p d)) = [tweet_id p]
  /\ db_of (deliver_tweet w id p d) = set_cursor id (tweet_id p) d.
Proof.
  rewrite (deliver_tweet_channels w d id p Hsend).
  rewrite deliver_tweet_ok by exact Hsend.
  unfold result_of, events_of, db_of. simpl.
  split; [reflexivity|]. split; [|split; [|split; [|reflexivity]]].
  - apply filter_In. auto.
  - intros H. apply filter_In in H. destruct H as [_ H]. congruence.
  - rewrite cursor_updates_app, cursor_updates_sends. simpl.
    now rewrite Z.eqb_refl.
Qed.

(** ** Bootstrap *)

(** C6.  For an account whose cursor is none (or 0, which Python also
    takes for false) the cycle asks Twitter for one post and gets the most
    recent one, if any: at most one post enters dedupe and fanout, every
    message sent for the account is that post's, and the cursor is set at
    most once. *)
Theorem bootstrap_fetches_latest_only (V : Vectorizer) (w : world)
    (d : database) (a : account_row) (posts : list tweet)
    (Hcursor : truthy (last_tweet_id a) = false)
    (Hfetch : timeline w (twitter_id a) = Some posts) :
  fetch_tweets w a d = (Ok (firstn 1 posts), d, [])
  /\ (List.length (firstn 1 posts) <= 1)%nat
  /\ process_account w a d
     = for_each (firstn 1 posts) (deliver_tweet w (acc_id a)) d
  /\ (forall c t m,
         In (Sent c t m) (events_of (process_account w a d)) ->
         exists p, hd_error posts = Some p /\ t = tweet_id p)
  /\ (List.length (cursor_updates (acc_id a)
                                  (events_of (process_account w a d)))
      <= 1)%nat.
Proof.
  assert (F : fetched a posts = firstn 1 posts)
    by (unfold fetched; now rewrite Hcursor).
  assert (P : process_account w a d
              = for_each (firstn 1 posts) (deliver_tweet w (acc_id a)) d).
  { rewrite process_account_unfold, Hfetch, F, remove_similar_firstn_1.
    now destruct posts. }
  split; [now rewrite fetch_tweets_unfold, Hfetch, F|].
  split; [apply firstn_le_length|]. split; [exact P|].
  rewrite P. destruct posts as [|p posts]; simpl firstn.
  - split; [intros c t m []|]. simpl. lia.
  - rewrite for_each_cons.
    pose proof (deliver_tweet_outcome w (acc_id a) p d) as Ho.
    pose proof (fun c t m => send_loop_events w p
                  (channel_ids_of d (acc_id a)) d c t m) as Hs.
    rewrite deliver_tweet_unfold in *.
    destruct (for_each (channel_ids_of d (acc_id a)) _ d)
      as [[[[]|e] d1] ev1]; unfold events_of, result_of, db_of in *;
      simpl in *.
    + split.
      * intros c t m H. rewrite app_nil_r in H. apply in_app_or in H.
        destruct H as [H|[H|[]]]; [|discriminate].
        exists p. split; [reflexivity|]. now apply (Hs c t m).
      * rewrite app_nil_r.
        destruct Ho as [(_ & _ & ->)|(_ & _ & ->)]; simpl; lia.
    + split.
      * intros c t m H. exists p. split; [reflexivity|].
        now apply (Hs c t m).
      * destruct Ho as [(_ & _ & ->)|(_ & _ & ->)]; simpl; lia.
Qed.

(** ** Subscriptions *)

(** C10, as amended.  Subscription rows are unique in their generated
    [id] only.  Every [start] request appends one row with a fresh [id] to
    [twitter_channels]: the rows already stored stay as they are and where
    they are, for every account and channel; the rows of the requested
    account and channel grow by the new one, those of every other pair are
    the same; the other tables are not touched. *)
Theorem start_appends_subscription (d : database) (account : string)
    (channel : Z) (rts rps media : bool) (threshold : Q)
    (Hauto : forall r, In r (twitter_channels d) ->
                       row_id r < twitter_channels_auto d)
    (Hnd : NoDup (map row_id (twitter_channels d))) :
  twitter_channels
    (add_twitter_channel d account channel rts rps media threshold)
  = twitter_channels d
      ++ [mkChannelRow (twitter_channels_auto d) account channel
                       rts rps media threshold]
  /\ (forall account' channel',
         subscriptions_of
           (add_twitter_channel d account channel rts rps media threshold)
           account' channel'
         = subscriptions_of d account' channel'
             ++ (if String.eqb account account' && (channel =? channel')
                 then [mkChannelRow (twitter_channels_auto d) account
                                    channel rts rps media threshold]
                 else []))
  /\ monitored_twitter_accounts
       (add_twitter_channel d account channel rts rps media threshold)
     = monitored_twitter_accounts d
  /\ twitter_account_channels
       (add_twitter_channel d account channel rts rps media threshold)
     = twitter_account_channels d
  /\ NoDup (map row_id
              (twitter_channels
                 (add_twitter_channel d account channel rts rps media
                                      threshold)))
  /\ (forall r,
         In r (twitter_channels
                 (add_twitter_channel d account channel rts rps media
                                      threshold)) ->
         row_id r
         < twitter_channels_auto
             (add_twitter_channel d account channel rts rps media
                                  threshold)).
Proof.
  unfold subscriptions_of, add_twitter_channel. simpl.
  split; [reflexivity|]. split; [|split; [reflexivity|]].
  - intros account' channel'. rewrite filter_app. simpl.
    now destruct (String.eqb account account' && (channel =? channel')).
  - split; [reflexivity|]. split.
    + rewrite map_app. simpl.
      apply NoDup_app; [exact Hnd|repeat constructor; intros []|].
      intros x Hx [<-|[]]. apply in_map_iff in Hx.
      destruct Hx as (r & Hr & Hin). specialize (Hauto r Hin). lia.
    + intros r Hr. apply in_app_or in Hr. destruct Hr as [Hr|[<-|[]]].
      * specialize (Hauto r Hr). lia.
      * simpl. lia.
Qed.

(** ** The instance and the concrete worlds *)

Lemma cosine_micro_nonneg (u v : list Z) : 0 <= cosine_micro u v.
Proof.
  unfold cosine_micro. destruct (_ =? 0); [lia|apply Z.sqrt_nonneg].
Qed.

Lemma count_cosine_well_formed : row_well_formed count_cosine.
Proof.
  intros texts row. simpl. unfold count_cosine_row.
  destruct (vocabulary _) as [|term vocab]; [discriminate|].
  intros H. injection H as <-. split.
  - rewrite length_map, removelast_firstn_len, length_firstn, !length_map.
    lia.
  - apply Forall_forall. intros s Hs. apply in_map_iff in Hs.
    destruct Hs as (u & <- & _). unfold Qle. simpl.
    pose proof (cosine_micro_nonneg u
                  (last (map (term_counts (term :: vocab))
                             (map tokenize texts)) [])).
    lia.
Qed.

Lemma timelines_positive (nasa esa : list tweet)
    (get : string -> option (Z * string)) (gc : Z -> bool)
    (so : Z -> string -> bool) :
  Forall (fun p => 0 < tweet_id p) (nasa ++ esa) ->
  positive_ids (mkWorld (timelines (Some nasa) (Some esa)) get gc so).
Proof.
  intros H u posts p. simpl. unfold timelines.
  rewrite Forall_forall in H.
  destruct (u =? 100); [|destruct (u =? 200)]; intros E Hp;
    injection E as <-.
  - apply H, in_or_app. now left.
  - apply H, in_or_app. now right.
  - destruct Hp.
Qed.

Lemma bootstrap_world_positive : positive_ids bootstrap_world.
Proof.
  apply timelines_positive. repeat constructor.
Qed.

Lemma later_world_positive : positive_ids later_world.
Proof.
  apply timelines_positive. repeat constructor.
Qed.

(** ** Counterexamples to the claims as stated *)


(** C2 as stated fails: post 23 survives dedupe, the send to channel 7
    raises, and the cursor is not advanced to the post. *)
Lemma cursor_advance_skipped_counterexample :
  remove_similar_headlines_tfidf (V := count_cosine) [post_plain]
    default_similarity_threshold = Some [post_plain]
  /\ stream_tweets (V := count_cosine) failing_world two_channel_db
     = (Raise DiscordError, two_channel_db, [SendRaised 7 23])
  /\ cursor_of two_channel_db 1 = None.
Proof. vm_compute. repeat split. Qed.

(** C3 as stated fails: the subscription of [nasa] stores 0.9 and that of
    [esa] 0.5; at 0.9 both posts of [nasa] would survive, yet the cycle
    drops post 11 for [nasa] as it drops post 14 for [esa]. *)
Lemma stored_threshold_unused_counterexample :
  map similarity_threshold (subscriptions_of threshold_db "nasa" 7)
  = [9 # 10]
  /\ map similarity_threshold (subscriptions_of threshold_db "esa" 8)
     = [5 # 10]
  /\ remove_similar_headlines_tfidf (V := count_cosine) [post_b; post_a]
       (9 # 10) = Some [post_b; post_a]
  /\ remove_similar_headlines_tfidf (V := count_cosine) [esa_b; esa_a]
       (5 # 10) = Some [esa_b]
  /\ events_of (stream_tweets (V := count_cosine)
                  threshold_world threshold_db)
     = [Sent 7 12 (render post_b); CursorSet 1 12;
        Sent 8 15 (render esa_b); CursorSet 2 15].
Proof. vm_compute. repeat split. Qed.

(** C4 as stated fails: the send for [nasa] raises, the cycle ends there,
    and [esa], whose post and channel are fine, is not fetched or
    delivered in this cycle. *)
Lemma delivery_error_aborts_cycle_counterexample :
  map twitter_handle (monitored_twitter_accounts two_account_db)
  = ["nasa"; "esa"]
  /\ timeline two_account_world 200 = Some [esa_post]
  /\ channel_ids_of two_account_db 2 = [8]
  /\ get_channel two_account_world 8 = true
  /\ send_ok two_account_world 8 (render esa_post) = true
  /\ stream_tweets (V := count_cosine) two_account_world two_account_db
     = (Raise DiscordError, two_account_db, [SendRaised 7 23])
  /\ cursor_of two_account_db 2 = None.
Proof. vm_compute. repeat split. Qed.

(** C5 as stated fails: the send to channel 7 raises; channel 8, linked to
    the same account, is not tried and the cursor stays where it was. *)
Lemma send_error_blocks_sibling_counterexample :
  channel_ids_of two_channel_db 1 = [7; 8]
  /\ get_channel failing_world 8 = true
  /\ send_ok failing_world 8 (render post_plain) = true
  /\ deliver_tweet failing_world 1 post_plain two_channel_db
     = (Raise DiscordError, two_channel_db, [SendRaised 7 23]).
Proof. vm_compute. repeat split. Qed.

(** C7 as stated fails: at 0.4 the second post is dropped and the third
    kept; at 0.8 the second is kept and the third, close to it, dropped. *)
Lemma dedupe_threshold_monotone_counterexample :
  (4 # 10 < 8 # 10)%Q
  /\ remove_similar_headlines_tfidf (V := count_cosine)
       [post_a; post_b; post_c] (4 # 10) = Some [post_a; post_c]
  /\ remove_similar_headlines_tfidf (V := count_cosine)
       [post_a; post_b; post_c] (8 # 10) = Some [post_a; post_b]
  /\ ~ incl [post_a; post_c] [post_a; post_b].
Proof.
  split; [reflexivity|]. split; [reflexivity|]. split; [reflexivity|].
  intros H. specialize (H post_c (or_intror (or_introl eq_refl))).
  destruct H as [H|[H|[]]]; discriminate H.
Qed.

(** C10 as stated fails: two [start] requests for the same account and
    channel leave two rows for the pair, the first with the settings it
    was created with. *)
Lemma resubscribe_duplicates_counterexample :
  subscriptions_of
    (add_twitter_channel
       (add_twitter_channel empty_db "nasa" 7 false false false (5 # 10))
       "nasa" 7 true true true (9 # 10))
    "nasa" 7
  = [mkChannelRow 1 "nasa" 7 false false false (5 # 10);
     mkChannelRow 2 "nasa" 7 true true true (9 # 10)].
Proof. reflexivity. Qed.

(** ** The theorems at concrete inputs *)


Lemma dedupe_uses_default_threshold_witness :
  (exists unique_tweets,
      remove_similar_headlines_tfidf (V := count_cosine)
        (fetched (mkAccount 1 100 "nasa" (Some 10)) [post_b; post_a])
        (4 # 10) = Some unique_tweets
      /\ cursor_updates 1
           (events_of (process_account (V := count_cosine) threshold_world
                         (mkAccount 1 100 "nasa" (Some 10)) threshold_db))
         = map tweet_id (rev unique_tweets))
  /\ (forall rows auto,
         stream_tweets (V := count_cosine) threshold_world
           (with_twitter_channels rows auto threshold_db)
         = on_db (with_twitter_channels rows auto)
                 (stream_tweets (V := count_cosine) threshold_world
                    threshold_db)).
Proof.
  exact (dedupe_uses_default_threshold count_cosine threshold_world
           threshold_db (mkAccount 1 100 "nasa" (Some 10))
           [post_b; post_a] eq_refl eq_refl).
Defined.

Lemma fetch_error_isolated_witness :
  for_each [mkAccount 1 100 "nasa" None; mkAccount 2 200 "esa" None]
    (process_account (V := count_cosine) rate_limited_world) two_account_db
  = match for_each [mkAccount 2 200 "esa" None]
            (process_account (V := count_cosine) rate_limited_world)
            two_account_db with
    | (r, d', ev) => (r, d', FetchErrorPrinted "nasa" :: ev)
    end
  /\ cursor_of
       (db_of (for_each [mkAccount 1 100 "nasa" None;
                         mkAccount 2 200 "esa" None]
                 (process_account (V := count_cosine) rate_limited_world)
                 two_account_db)) 1
     = cursor_of two_account_db 1.
Proof.
  refine (fetch_error_isolated count_cosine rate_limited_world
            two_account_db (mkAccount 1 100 "nasa" None)
            [mkAccount 2 200 "esa" None] eq_refl _).
  simpl. intros [H|[]]. discriminate H.
Defined.

Lemma absent_channel_does_not_block_witness :
  result_of (deliver_tweet absent_world 1 post_plain two_channel_db) = Ok tt
  /\ In 8 (channels_sent 23
             (events_of (deliver_tweet absent_world 1 post_plain
                           two_channel_db)))
  /\ ~ In 7 (channels_sent 23
               (events_of (deliver_tweet absent_world 1 post_plain
                             two_channel_db)))
  /\ cursor_updates 1
       (events_of (deliver_tweet absent_world 1 post_plain two_channel_db))
     = [23]
  /\ db_of (deliver_tweet absent_world 1 post_plain two_channel_db)
     = set_cursor 1 23 two_channel_db.
Proof.
  refine (absent_channel_does_not_block absent_world two_channel_db 1
            post_plain 7 8 _ _ eq_refl eq_refl (fun c _ _ => eq_refl)).
  - simpl. now left.
  - simpl. now right; left.
Defined.

Lemma bootstrap_fetches_latest_only_witness :
  fetch_tweets bootstrap_world (mkAccount 1 100 "nasa" None) bootstrap_db
  = (Ok [post_c], bootstrap_db, [])
  /\ (List.length (firstn 1 [post_c; post_b; post_a]) <= 1)%nat
  /\ process_account (V := count_cosine) bootstrap_world
       (mkAccount 1 100 "nasa" None) bootstrap_db
     = for_each [post_c] (deliver_tweet bootstrap_world 1) bootstrap_db
  /\ (forall c t m,
         In (Sent c t m)
            (events_of (process_account (V := count_cosine) bootstrap_world
                          (mkAccount 1 100 "nasa" None) bootstrap_db)) ->
         exists p, hd_error [post_c; post_b; post_a] = Some p
                   /\ t = tweet_id p)
  /\ (List.length
        (cursor_updates 1
           (events_of (process_account (V := count_cosine) bootstrap_world
                         (mkAccount 1 100 "nasa" None) bootstrap_db)))
      <= 1)%nat.
Proof.
  exact (bootstrap_fetches_latest_only count_cosine bootstrap_world
           bootstrap_db (mkAccount 1 100 "nasa" None)
           [post_c; post_b; post_a] eq_refl eq_refl).
Defined.

Lemma dedupe_threshold_monotone_step_witness :
  (4 # 10 <= 8 # 10)%Q
  /\ (forall acc x,
         is_unique (V := count_cosine) (4 # 10) acc x = Some true ->
         is_unique (V := count_cosine) (8 # 10) acc x = Some true)
  /\ (forall p q out1,
         remove_similar_headlines_tfidf (V := count_cosine) [p; q] (4 # 10)
         = Some out1 ->
         exists out2,
           remove_similar_headlines_tfidf (V := count_cosine) [p; q]
             (8 # 10) = Some out2
           /\ incl out1 out2).
Proof.
  assert (H : (4 # 10 <= 8 # 10)%Q) by (unfold Qle; simpl; lia).
  exact (conj H (dedupe_threshold_monotone_step count_cosine
                   (4 # 10) (8 # 10) H)).
Defined.

Lemma dedupe_edge_cases_witness :
  (forall t, remove_similar_headlines_tfidf (V := count_cosine) [] t
             = Some [])
  /\ (forall t p, remove_similar_headlines_tfidf (V := count_cosine) [p] t
                  = Some [p])
  /\ (forall p rest,
         remove_similar_headlines_tfidf (V := count_cosine) (p :: rest) 0
         = if forallb (fits (V := count_cosine) p) rest
           then Some [p] else None)
  /\ (forall tweets out p,
         remove_similar_headlines_tfidf (V := count_cosine) tweets 0
         = Some out ->
         In p out -> hd_error tweets = Some p /\ out = [p]).
Proof.
  exact (dedupe_edge_cases count_cosine count_cosine_well_formed).
Defined.

Lemma start_appends_subscription_witness :
  twitter_channels (add_twitter_channel stored_db "nasa" 7 true true true
                                        (9 # 10))
  = [mkChannelRow 1 "esa" 8 false true false (3 # 10);
     mkChannelRow 2 "nasa" 7 false false false (5 # 10)]
      ++ [mkChannelRow 3 "nasa" 7 true true true (9 # 10)]
  /\ (forall account' channel',
         subscriptions_of
           (add_twitter_channel stored_db "nasa" 7 true true true (9 # 10))
           account' channel'
         = subscriptions_of stored_db account' channel'
             ++ (if String.eqb "nasa" account' && (7 =? channel')
                 then [mkChannelRow 3 "nasa" 7 true true true (9 # 10)]
                 else []))
  /\ monitored_twitter_accounts
       (add_twitter_channel stored_db "nasa" 7 true true true (9 # 10))
     = monitored_twitter_accounts stored_db
  /\ twitter_account_channels
       (add_twitter_channel stored_db "nasa" 7 true true true (9 # 10))
     = twitter_account_channels stored_db
  /\ NoDup (map row_id
              (twitter_channels
                 (add_twitter_channel stored_db "nasa" 7 true true true
                                      (9 # 10))))
  /\ (forall r,
         In r (twitter_channels
                 (add_twitter_channel stored_db "nasa" 7 true true true
                                      (9 # 10))) ->
         row_id r < 4).
Proof.
  refine (start_appends_subscription stored_db "nasa" 7 true true true
            (9 # 10) _ _).
  - intros r [<-|[<-|[]]]; reflexivity.
  - repeat (apply NoDup_cons; [simpl; intuition discriminate|]).
    apply NoDup_nil.
Defined.

(** * Further properties of the code *)

(** ** [remove_similar_headlines_tfidf] *)

Lemma subsequence_length {A} (l1 l2 : list A) :
  subsequence l1 l2 -> (List.length l1 <= List.length l2)%nat.
Proof. induction 1; simpl; lia. Qed.

Lemma subsequence_refl {A} (l : list A) : subsequence l l.
Proof. induction l; constructor; assumption. Qed.

Lemma any_similar_false (t : Q) (row : list Q) :
  any_similar t row = false <-> Forall (fun s => (s < t)%Q) row.
Proof.
  induction row as [|s row IH]; simpl.
  - split; [constructor|reflexivity].
  - destruct (Qle_bool t s) eqn:E.
    + split; [discriminate|]. intros H. inversion H as [|? ? Hs _]; subst.
      apply Qle_bool_iff in E. exfalso. exact (Qlt_not_le _ _ Hs E).
    + rewrite IH. split.
      * intros H. constructor; [|exact H]. apply Qnot_le_lt. intros Hle.
        apply Qle_bool_iff in Hle. congruence.
      * intros H. now inversion H.
Qed.

Section DedupeMore.
Context {V : Vectorizer}.

Lemma dedupe_loop_subsequence (t : Q) (tweets : list tweet) :
  forall acc out,
    dedupe_loop t tweets acc = Some out ->
    exists kept, out = acc ++ kept /\ subsequence kept tweets.
Proof.
  induction tweets as [|x tweets IH]; simpl; intros acc out H.
  - injection H as <-. exists []. split; [now rewrite app_nil_r|constructor].
  - destruct (is_unique t acc x) as [[|]|]; [| |discriminate].
    + destruct (IH _ _ H) as (kept & -> & Hk). exists (x :: kept).
      split; [now rewrite <- app_assoc|now constructor].
    + destruct (IH _ _ H) as (kept & -> & Hk). exists kept.
      split; [reflexivity|now constructor].
Qed.

(** When the loop keeps every tweet, each was unique on its turn. *)
Lemma dedupe_loop_all_kept (t : Q) (tweets : list tweet) :
  forall acc,
    dedupe_loop t tweets acc = Some (acc ++ tweets) ->
    forall pre x post,
      tweets = pre ++ x :: post -> is_unique t (acc ++ pre) x = Some true.
Proof.
  induction tweets as [|y tweets IH]; intros acc H pre x post E.
  - now destruct pre.
  - simpl in H. destruct (is_unique t acc y) as [[|]|] eqn:U;
      [| |discriminate].
    + destruct pre as [|z pre]; simpl in E; injection E as <- E.
      * now rewrite app_nil_r.
      * replace (acc ++ y :: pre) with ((acc ++ [y]) ++ pre)
          by now rewrite <- app_assoc.
        apply (IH (acc ++ [y])) with (post := post); [|exact E].
        now rewrite <- app_assoc.
    + exfalso. destruct (dedupe_loop_subsequence _ _ _ _ H)
        as (kept & Hk & Hs).
      apply app_inv_head in Hk. subst kept.
      apply subsequence_length in Hs. simpl in Hs. lia.
Qed.

Lemma dedupe_loop_keep_all (t : Q) (tweets : list tweet) :
  forall acc,
    (forall pre x post,
        tweets = pre ++ x :: post ->
        is_unique t (acc ++ pre) x = Some true) ->
    dedupe_loop t tweets acc = Some (acc ++ tweets).
Proof.
  induction tweets as [|y tweets IH]; intros acc H; simpl.
  - now rewrite app_nil_r.
  - pose proof (H [] y tweets eq_refl) as H0. rewrite app_nil_r in H0.
    rewrite H0, (IH (acc ++ [y])); [now rewrite <- app_assoc|].
    intros pre x post E. rewrite <- app_assoc. simpl.
    apply (H (y :: pre) x post). now rewrite E.
Qed.
End DedupeMore.

(** X1.  Order preservation: what [remove_similar_headlines_tfidf] returns
    is its input with some tweets left out, the others in their order. *)
Theorem dedupe_preserves_order (V : Vectorizer) (tweets out : list tweet)
    (t : Q) (H : remove_similar_headlines_tfidf tweets t = Some out) :
  subsequence out tweets.
Proof.
  destruct (dedupe_loop_subsequence _ _ _ _ H) as (kept & -> & Hk).
  exact Hk.
Qed.

(** X2.  The first tweet of a batch is always kept, as the first of the
    result: no comparison is made for it. *)
Theorem dedupe_keeps_first (V : Vectorizer) (p : tweet)
    (rest out : list tweet) (t : Q)
    (H : remove_similar_headlines_tfidf (p :: rest) t = Some out) :
  exists tail, out = p :: tail /\ subsequence tail rest.
Proof.
  unfold remove_similar_headlines_tfidf in H. simpl in H.
  destruct (dedupe_loop_subsequence _ _ _ _ H) as (kept & -> & Hk).
  now exists kept.
Qed.

(** X3.  Every tweet of the result scored below the threshold against all
    the tweets kept before it, in the vector space fitted on those tweets
    and itself. *)
Theorem dedupe_kept_below_threshold (V : Vectorizer)
    (tweets out : list tweet) (t : Q) (pre post : list tweet) (x : tweet)
    (H : remove_similar_headlines_tfidf tweets t = Some out)
    (Hsplit : out = pre ++ x :: post)
    (Hpre : pre <> []) :
  exists row,
    last_row_similarities (map tweet_text pre ++ [tweet_text x]) = Some row
    /\ Forall (fun s => (s < t)%Q) row.
Proof.
  destruct (dedupe_loop_replay _ _ _ _ H) as (kept & E & Hk).
  simpl in E. subst kept.
  pose proof (dedupe_loop_all_kept t out [] Hk pre x post Hsplit) as U.
  simpl in U. unfold is_unique in U.
  destruct pre as [|a pre]; [congruence|].
  destruct (last_row_similarities _) as [row|]; [|discriminate].
  exists row. split; [reflexivity|].
  apply any_similar_false. injection U as U.
  now apply negb_true_iff.
Qed.

(** X4.  Nothing is dropped exactly when every tweet of the batch is
    unique against all the tweets before it. *)
Theorem dedupe_keeps_all_iff (V : Vectorizer) (tweets : list tweet) (t : Q) :
  remove_similar_headlines_tfidf tweets t = Some tweets
  <-> (forall pre x post,
          tweets = pre ++ x :: post -> is_unique t pre x = Some true).
Proof.
  unfold remove_similar_headlines_tfidf. split.
  - intros H pre x post E.
    exact (dedupe_loop_all_kept t tweets [] H pre x post E).
  - intros H. apply (dedupe_loop_keep_all t tweets []). exact H.
Qed.

(** ** What a polling cycle touches *)

Lemma same_but_cursors_refl (d : database) : same_but_cursors d d.
Proof. repeat split. Qed.

Lemma same_but_cursors_trans (d1 d2 d3 : database) :
  same_but_cursors d1 d2 -> same_but_cursors d2 d3 ->
  same_but_cursors d1 d3.
Proof.
  intros (A1 & A2 & A3 & A4 & A5) (B1 & B2 & B3 & B4 & B5).
  repeat split; congruence.
Qed.

Lemma same_but_cursors_set_cursor (id tid : Z) (d : database) :
  same_but_cursors d (set_cursor id tid d).
Proof.
  repeat split. simpl. rewrite map_map. apply map_ext. intros r.
  unfold set_last_tweet_id, account_key. now destruct (acc_id r =? id).
Qed.

Section FrameFacts.
Context {V : Vectorizer}.

Lemma process_account_frame (w : world) (a : account_row) (d : database) :
  same_but_cursors d (db_of (process_account w a d)).
Proof.
  destruct (process_account_db w a d) as [-> | (? & ? & _ & _ & ->)];
    [apply same_but_cursors_refl|apply same_but_cursors_set_cursor].
Qed.

Lemma accounts_loop_frame (w : world) (l : list account_row) :
  forall d, same_but_cursors d (db_of (for_each l (process_account w) d)).
Proof.
  induction l as [|a l IH]; intros d; [apply same_but_cursors_refl|].
  rewrite for_each_cons.
  pose proof (process_account_frame w a d) as H1.
  destruct (process_account w a d) as [[[[]|e] d1] ev1];
    unfold db_of in *; simpl in *; [|exact H1].
  specialize (IH d1). destruct (for_each l _ d1) as [[r2 d2] ev2].
  simpl in *. eapply same_but_cursors_trans; eassumption.
Qed.

Lemma stream_tweets_frame (w : world) (d : database) :
  same_but_cursors d (db_of (stream_tweets w d)).
Proof. rewrite stream_tweets_unfold. apply accounts_loop_frame. Qed.
End FrameFacts.

(** X10.  Polling writes nothing but cursors: after any number of cycles
    the subscription rows, the links, the id counters and the id, Twitter
    id and handle of every account are what they were. *)
Theorem polling_only_moves_cursors (V : Vectorizer) (ws : list world)
    (d : database) :
  same_but_cursors d (fst (tweet_streamer ws d)).
Proof.
  revert d. induction ws as [|w ws IH]; intros d;
    [apply same_but_cursors_refl|].
  simpl. pose proof (stream_tweets_frame w d) as H1.
  destruct (stream_tweets w d) as [[r d1] ev1].
  unfold db_of in H1; simpl in H1. specialize (IH d1).
  destruct (tweet_streamer ws d1) as [d2 ev2]. simpl in *.
  eapply same_but_cursors_trans; eassumption.
Qed.

(** ** What a polling cycle sends *)

Lemma send_loop_message (w : world) (p : tweet) (chs : list Z)
    (d : database) (c t : Z) (m : string) :
  In (Sent c t m) (events_of (for_each chs (send_to_channel w p) d)) ->
  m = render p.
Proof.
  induction chs as [|c0 chs IH]; [intros []|].
  rewrite for_each_cons. unfold send_to_channel at 1.
  destruct (get_channel w c0).
  - destruct (send_ok w c0 (render p)).
    + unfold emit. destruct (for_each chs _ d) as [[r2 d2] ev2].
      unfold events_of in *. simpl in *.
      intros [H|H]; [now injection H|auto].
    + cbv. intros [H|[]]. discriminate.
  - unfold ret. destruct (for_each chs _ d) as [[r2 d2] ev2].
    unfold events_of in *. simpl in *. auto.
Qed.

Lemma deliver_tweet_sent (w : world) (id : Z) (p : tweet) (d : database)
    (c t : Z) (m : string) :
  In (Sent c t m) (events_of (deliver_tweet w id p d)) ->
  t = tweet_id p /\ m = render p
  /\ In c (channel_ids_of d id) /\ get_channel w c = true.
Proof.
  rewrite deliver_tweet_unfold.
  pose proof (send_loop_events w p (channel_ids_of d id) d c t m) as H1.
  pose proof (send_loop_message w p (channel_ids_of d id) d c t m) as H2.
  destruct (for_each _ _ d) as [[[[]|e] d1] ev1];
    unfold events_of in *; simpl in *; intros H.
  - apply in_app_or in H. destruct H as [H|[H|[]]]; [|discriminate].
    destruct (H1 H) as (? & ? & ?). auto.
  - destruct (H1 H) as (? & ? & ?). auto.
Qed.

Lemma deliver_all_sent (w : world) (id : Z) (l : list tweet) (c t : Z)
    (m : string) :
  forall d,
    In (Sent c t m) (events_of (for_each l (deliver_tweet w id) d)) ->
    exists p,
      In p l /\ t = tweet_id p /\ m = render p
      /\ In c (channel_ids_of d id) /\ get_channel w c = true.
Proof.
  induction l as [|p l IH]; intros d; [intros []|].
  rewrite for_each_cons.
  pose proof (deliver_tweet_sent w id p d c t m) as H1.
  pose proof (deliver_tweet_outcome w id p d) as Ho.
  destruct (deliver_tweet w id p d) as [[[[]|e] d1] ev1];
    unfold events_of, db_of, result_of in *; simpl in *.
  - specialize (IH d1).
    destruct (for_each l _ d1) as [[r2 d2] ev2]. simpl in *.
    intros H. apply in_app_or in H. destruct H as [H|H].
    + exists p. destruct (H1 H) as (? & ? & ? & ?). auto.
    + destruct (IH H) as (q & Hq & ? & ? & Hc & ?).
      exists q. repeat split; auto.
      destruct Ho as [(_ & -> & _)|(Hr & _)]; [exact Hc|discriminate].
  - intros H. exists p. destruct (H1 H) as (? & ? & ? & ?). auto.
Qed.

Section SentFacts.
Context {V : Vectorizer}.

Lemma process_account_sent (w : world) (a : account_row) (d : database)
    (c t : Z) (m : string) :
  In (Sent c t m) (events_of (process_account w a d)) ->
  exists posts p,
    timeline w (twitter_id a) = Some posts /\ In p (fetched a posts)
    /\ t = tweet_id p /\ m = render p
    /\ In c (channel_ids_of d (acc_id a)) /\ get_channel w c = true.
Proof.
  rewrite process_account_unfold.
  destruct (timeline w (twitter_id a)) as [posts|];
    [|intros [H|[]]; discriminate].
  destruct (remove_similar_headlines_tfidf _ _) as [u|] eqn:U;
    [|intros []].
  intros H. destruct (deliver_all_sent _ _ _ _ _ _ _ H)
    as (p & Hp & ? & ? & ? & ?).
  exists posts, p. repeat split; auto.
  apply (remove_similar_incl _ _ _ U). now apply in_rev.
Qed.

Lemma accounts_loop_sent (w : world) (l : list account_row) (c t : Z)
    (m : string) :
  forall d,
    In (Sent c t m) (events_of (for_each l (process_account w) d)) ->
    exists a posts p,
      In a l /\ timeline w (twitter_id a) = Some posts
      /\ In p (fetched a posts) /\ t = tweet_id p /\ m = render p
      /\ In c (channel_ids_of d (acc_id a)) /\ get_channel w c = true.
Proof.
  induction l as [|a l IH]; intros d; [intros []|].
  rewrite for_each_cons.
  pose proof (process_account_sent w a d c t m) as H1.
  pose proof (process_account_frame w a d) as (_ & _ & _ & Hl & _).
  destruct (process_account w a d) as [[[[]|e] d1] ev1];
    unfold events_of, db_of in *; simpl in *.
  - specialize (IH d1).
    destruct (for_each l _ d1) as [[r2 d2] ev2]. simpl in *.
    intros H. apply in_app_or in H. destruct H as [H|H].
    + destruct (H1 H) as (posts & p & ? & ? & ? & ? & ? & ?).
      exists a, posts, p. repeat split; auto.
    + destruct (IH H) as (b & posts & p & ? & ? & ? & ? & ? & Hc & ?).
      exists b, posts, p. repeat split; auto.
      unfold channel_ids_of in *. now rewrite <- Hl.
  - intros H. destruct (H1 H) as (posts & p & ? & ? & ? & ? & ? & ?).
    exists a, posts, p. repeat split; auto.
Qed.
End SentFacts.

(** X11.  A cycle sends nothing it should not: every message sent is the
    rendering of a post of the timeline of a monitored account, goes to a
    channel linked to that account that resolves, and, when the account
    has a cursor, the post's id is above it. *)
Theorem only_new_posts_are_sent (V : Vectorizer) (w : world) (d : database)
    (c t : Z) (m : string)
    (H : In (Sent c t m) (events_of (stream_tweets w d))) :
  exists a posts p,
    In a (monitored_twitter_accounts d)
    /\ timeline w (twitter_id a) = Some posts
    /\ In p posts /\ t = tweet_id p /\ m = render p
    /\ In c (channel_ids_of d (acc_id a)) /\ get_channel w c = true
    /\ (forall cursor,
           last_tweet_id a = Some cursor -> cursor <> 0 -> cursor < t).
Proof.
  rewrite stream_tweets_unfold in H.
  destruct (accounts_loop_sent _ _ _ _ _ _ H)
    as (a & posts & p & Ha & T & Hp & -> & -> & Hc & Hg).
  exists a, posts, p. apply fetched_in in Hp. destruct Hp as [Hin Hnew].
  repeat split; auto.
  intros cursor E Hne. destruct Hnew as (c' & E' & Hlt).
  - rewrite E. simpl. apply negb_true_iff. now apply Z.eqb_neq.
  - congruence.
Qed.

(** ** Where the cursor lands *)

Lemma advance_snoc (id : Z) (p : tweet) (l : list tweet) :
  forall d, advance id (l ++ [p]) d = set_cursor id (tweet_id p) d.
Proof.
  induction l as [|x l IH]; intros d; [reflexivity|].
  change (advance id ((x :: l) ++ [p]) d)
    with (advance id (l ++ [p]) (set_cursor id (tweet_id x) d)).
  rewrite IH. apply set_cursor_twice.
Qed.

Lemma deliver_all_db_ok (w : world) (id : Z) (l : list tweet) :
  forall d,
    result_of (for_each l (deliver_tweet w id) d) = Ok tt ->
    db_of (for_each l (deliver_tweet w id) d) = advance id l d.
Proof.
  induction l as [|p l IH]; intros d; [reflexivity|].
  rewrite for_each_cons.
  destruct (deliver_tweet_outcome w id p d) as [(Hr & Hd & _)|(Hr & _)];
    destruct (deliver_tweet w id p d) as [[r d1] ev1];
    unfold result_of, db_of in *; simpl in *; subst r.
  - subst d1. specialize (IH (set_cursor id (tweet_id p) d)).
    destruct (for_each l _ _) as [[r2 d2] ev2]. simpl in *. exact IH.
  - discriminate.
Qed.

Lemma cursor_of_set_cursor_row (a : account_row) (tid : Z) (d : database) :
  In a (monitored_twitter_accounts d) ->
  cursor_of (set_cursor (acc_id a) tid d) (acc_id a) = Some tid.
Proof.
  intros Hin. unfold cursor_of. simpl. rewrite find_set_last.
  destruct (find _ (monitored_twitter_accounts d)) as [r|] eqn:E.
  - apply find_some in E. destruct E as [_ E]. simpl.
    unfold set_last_tweet_id. now rewrite E.
  - apply (find_none _ _ E) in Hin. now rewrite Z.eqb_refl in Hin.
Qed.

Section LandingFacts.
Context {V : Vectorizer}.

(** The database after an account was processed to the end. *)
Lemma process_account_ok_db (w : world) (a : account_row) (d : database) :
  result_of (process_account w a d) = Ok tt ->
  db_of (process_account w a d)
  = match timeline w (twitter_id a) with
    | Some posts =>
        match fetched a posts with
        | p :: _ => set_cursor (acc_id a) (tweet_id p) d
        | [] => d
        end
    | None => d
    end.
Proof.
  rewrite process_account_unfold.
  destruct (timeline w (twitter_id a)) as [posts|]; [|reflexivity].
  destruct (fetched a posts) as [|p rest] eqn:F; [reflexivity|].
  destruct (remove_similar_headlines_tfidf _ _) as [u|] eqn:U;
    [|discriminate].
  intros Hok. rewrite (deliver_all_db_ok _ _ _ _ Hok).
  unfold remove_similar_headlines_tfidf in U. simpl in U.
  destruct (dedupe_loop_subsequence _ _ _ _ U) as (kept & -> & _).
  simpl. apply advance_snoc.
Qed.
End LandingFacts.

(** X12.  When an account is processed to the end and Twitter returned
    posts for it, its cursor is the id of the first post returned (the
    newest), whatever the dedupe dropped in between. *)
Theorem cursor_lands_on_newest (V : Vectorizer) (w : world) (d : database)
    (a : account_row) (posts rest : list tweet) (p : tweet)
    (Hrow : In a (monitored_twitter_accounts d))
    (Hfetch : timeline w (twitter_id a) = Some posts)
    (Hposts : fetched a posts = p :: rest)
    (Hdone : result_of (process_account w a d) = Ok tt) :
  cursor_of (db_of (process_account w a d)) (acc_id a) = Some (tweet_id p).
Proof.
  rewrite (process_account_ok_db w a d Hdone), Hfetch, Hposts.
  now apply cursor_of_set_cursor_row.
Qed.

(** ** A cycle repeated in an unchanged world *)

Lemma unique_row (l : list account_row) (x y : account_row) :
  NoDup (map acc_id l) -> In x l -> In y l -> acc_id x = acc_id y -> x = y.
Proof.
  induction l as [|r l IH]; simpl; intros Hnd Hx Hy E; [destruct Hx|].
  inversion Hnd as [|? ? Hnot Hnd']; subst.
  destruct Hx as [->|Hx], Hy as [->|Hy]; auto.
  - exfalso. apply Hnot. rewrite E. now apply in_map.
  - exfalso. apply Hnot. rewrite <- E. now apply in_map.
Qed.

Lemma existsb_id_absent (l : list account_row) (id : Z) :
  ~ In id (map acc_id l) -> existsb (fun b => acc_id b =? id) l = false.
Proof.
  intros H. destruct (existsb _ l) eqn:E; [|reflexivity].
  apply existsb_exists in E. destruct E as (b & Hb & E).
  apply Z.eqb_eq in E. exfalso. apply H. rewrite <- E. now apply in_map.
Qed.

Lemma sorted_filter_head (f : tweet -> bool) (l : list tweet) :
  StronglySorted (fun p q => tweet_id q <= tweet_id p) l ->
  forall p rest,
    filter f l = p :: rest ->
    forall q, In q rest -> tweet_id q <= tweet_id p.
Proof.
  induction 1 as [|x l Hs IH Hx]; simpl; intros p rest E q Hq;
    [discriminate|].
  destruct (f x).
  - injection E as <- <-. apply filter_In in Hq.
    rewrite Forall_forall in Hx. now apply Hx.
  - eapply IH; eassumption.
Qed.

Lemma filter_none {A} (f : A -> bool) (l : list A) :
  (forall x, In x l -> f x = false) -> filter f l = [].
Proof.
  induction l as [|x l IH]; intros H; [reflexivity|].
  simpl. rewrite (H x (or_introl eq_refl)). apply IH.
  intros y Hy. apply H. now right.
Qed.

(** The first post fetched has the largest id of the timeline. *)
Lemma fetched_head_max (r : account_row) (posts rest : list tweet)
    (p : tweet) :
  StronglySorted (fun p q => tweet_id q <= tweet_id p) posts ->
  fetched r posts = p :: rest ->
  forall q, In q posts -> tweet_id q <= tweet_id p.
Proof.
  intros Hs. unfold fetched. destruct (truthy (last_tweet_id r)) eqn:T.
  - destruct (last_tweet_id r) as [c|]; [|discriminate].
    destruct (filter _ posts) as [|x l] eqn:F; [discriminate|].
    simpl. intros E q Hq. injection E as -> _.
    assert (Hp : (c <? tweet_id p) = true).
    { assert (Hin : In p (filter (fun t => c <? tweet_id t) posts))
        by (rewrite F; now left).
      apply filter_In in Hin. tauto. }
    destruct (c <? tweet_id q) eqn:Q.
    + assert (Hin : In q (filter (fun t => c <? tweet_id t) posts))
        by (apply filter_In; auto).
      rewrite F in Hin. destruct Hin as [->|Hin]; [lia|].
      eapply sorted_filter_head; eassumption.
    + apply Z.ltb_lt in Hp. apply Z.ltb_ge in Q. lia.
  - destruct posts as [|x posts]; [discriminate|]. simpl.
    intros E q Hq. injection E as -> _.
    inversion Hs as [|? ? _ Hx]; subst. rewrite Forall_forall in Hx.
    destruct Hq as [->|Hq]; [lia|now apply Hx].
Qed.

Lemma fetched_settled (w : world) (r : account_row) (posts : list tweet) :
  positive_ids w -> newest_first w ->
  timeline w (twitter_id r) = Some posts ->
  fetched (settle w r) posts = [].
Proof.
  intros Hpos Hnew T. unfold settle, new_cursor. rewrite T.
  destruct (fetched r posts) as [|p rest] eqn:F; [exact F|].
  assert (Hin : In p posts).
  { apply (fetched_in r posts p). rewrite F. now left. }
  pose proof (Hpos _ _ _ T Hin) as Hp.
  unfold fetched. simpl.
  replace (tweet_id p =? 0) with false by (symmetry; apply Z.eqb_neq; lia).
  simpl. rewrite filter_none; [reflexivity|].
  intros q Hq. apply Z.ltb_ge.
  exact (fetched_head_max r posts rest p (Hnew _ _ T) F q Hq).
Qed.

Section QuietFacts.
Context {V : Vectorizer}.

Lemma process_account_settles (w : world) (a : account_row)
    (d : database) :
  unique_ids d -> In a (monitored_twitter_accounts d) ->
  result_of (process_account w a d) = Ok tt ->
  monitored_twitter_accounts (db_of (process_account w a d))
  = map (fun r => if acc_id r =? acc_id a then settle w a else r)
        (monitored_twitter_accounts d).
Proof.
  intros Hnd Hin Hok. rewrite (process_account_ok_db w a d Hok).
  assert (Same : settle w a = a ->
                 monitored_twitter_accounts d
                 = map (fun r => if acc_id r =? acc_id a
                                 then settle w a else r)
                       (monitored_twitter_accounts d)).
  { intros E. rewrite <- (map_id (monitored_twitter_accounts d)) at 1.
    apply map_ext_in. intros r Hr.
    destruct (acc_id r =? acc_id a) eqn:Q; [|reflexivity].
    apply Z.eqb_eq in Q. rewrite E.
    exact (unique_row _ r a Hnd Hr Hin Q). }
  unfold settle, new_cursor in *.
  destruct (timeline w (twitter_id a)) as [posts|];
    [|apply Same; now destruct a].
  destruct (fetched a posts) as [|p rest];
    [apply Same; now destruct a|].
  simpl. apply map_ext_in. intros r Hr. unfold set_last_tweet_id.
  destruct (acc_id r =? acc_id a) eqn:Q; [|reflexivity].
  apply Z.eqb_eq in Q.
  now rewrite (unique_row _ r a Hnd Hr Hin Q).
Qed.

Lemma accounts_loop_settles (w : world) (l : list account_row) :
  forall d,
    unique_ids d -> incl l (monitored_twitter_accounts d) ->
    NoDup (map acc_id l) ->
    result_of (for_each l (process_account w) d) = Ok tt ->
    monitored_twitter_accounts (db_of (for_each l (process_account w) d))
    = map (fun r => if existsb (fun b => acc_id b =? acc_id r) l
                    then settle w r else r)
          (monitored_twitter_accounts d).
Proof.
  induction l as [|a l IH]; intros d Hnd Hincl Hl Hok.
  - simpl. now rewrite map_id.
  - rewrite for_each_cons in *.
    assert (Ha : In a (monitored_twitter_accounts d))
      by (apply Hincl; now left).
    pose proof (process_account_settles w a d Hnd Ha) as H1.
    pose proof (process_account_ids w a d) as H2.
    inversion Hl as [|? ? Hnot Hl']; subst.
    destruct (process_account w a d) as [[[[]|e] d1] ev1];
      unfold result_of, db_of in *; simpl in *; [|discriminate].
    specialize (H1 eq_refl).
    assert (Hnd1 : unique_ids d1) by (unfold unique_ids; now rewrite H2).
    assert (Hincl1 : incl l (monitored_twitter_accounts d1)).
    { intros b Hb. rewrite H1. apply in_map_iff. exists b.
      split; [|apply Hincl; now right].
      destruct (acc_id b =? acc_id a) eqn:Q; [|reflexivity].
      apply Z.eqb_eq in Q. exfalso. apply Hnot. rewrite <- Q.
      now apply in_map. }
    specialize (IH d1 Hnd1 Hincl1 Hl').
    destruct (for_each l _ d1) as [[r2 d2] ev2]. simpl in *.
    rewrite (IH Hok), H1, map_map. apply map_ext_in. intros r Hr.
    rewrite (Z.eqb_sym (acc_id a) (acc_id r)).
    destruct (acc_id r =? acc_id a) eqn:Q; simpl; [|reflexivity].
    apply Z.eqb_eq in Q.
    rewrite (unique_row _ r a Hnd Hr Ha Q).
    now rewrite existsb_id_absent.
Qed.

Lemma accounts_loop_quiet (w : world) (l : list account_row) (d : database) :
  (forall r posts, In r l -> timeline w (twitter_id r) = Some posts ->
                   fetched r posts = []) ->
  result_of (for_each l (process_account w) d) = Ok tt
  /\ db_of (for_each l (process_account w) d) = d
  /\ quiet (events_of (for_each l (process_account w) d)).
Proof.
  induction l as [|a l IH]; intros H.
  - repeat split. intros e [].
  - rewrite for_each_cons, process_account_unfold.
    destruct IH as (Hr & Hd & Hq); [intros r posts Hr; apply H; now right|].
    destruct (for_each l _ d) as [[r2 d2] ev2] eqn:E.
    unfold result_of, db_of, events_of in *. simpl in *.
    destruct (timeline w (twitter_id a)) as [posts|] eqn:T.
    + rewrite (H a posts (or_introl eq_refl) T). simpl. rewrite E. simpl.
      auto.
    + rewrite E. simpl. repeat split; auto.
      intros e [<-|He]; [eexists; reflexivity|auto].
Qed.
End QuietFacts.

(** X13.  Steady state: after a cycle that ran to the end, a second cycle
    in the same world (timelines newest first, ids positive) sends nothing
    and moves no cursor; it only prints again the fetch errors. *)
Theorem second_cycle_is_quiet (V : Vectorizer) (w : world) (d : database)
    (Hids : unique_ids d) (Hpos : positive_ids w) (Hnew : newest_first w)
    (Hdone : result_of (stream_tweets w d) = Ok tt) :
  result_of (stream_tweets w (db_of (stream_tweets w d))) = Ok tt
  /\ db_of (stream_tweets w (db_of (stream_tweets w d)))
     = db_of (stream_tweets w d)
  /\ quiet (events_of (stream_tweets w (db_of (stream_tweets w d)))).
Proof.
  rewrite (stream_tweets_unfold w (db_of (stream_tweets w d))).
  apply accounts_loop_quiet. intros r posts Hr T.
  rewrite stream_tweets_unfold in Hr, Hdone.
  rewrite (accounts_loop_settles w _ d Hids (incl_refl _) Hids Hdone) in Hr.
  apply in_map_iff in Hr. destruct Hr as (r0 & <- & Hr0).
  assert (E : existsb (fun b => acc_id b =? acc_id r0)
                      (monitored_twitter_accounts d) = true).
  { apply existsb_exists. exists r0. split; [exact Hr0|apply Z.eqb_refl]. }
  rewrite E in T |- *. now apply fetched_settled.
Qed.

(** ** A send that keeps raising *)

Lemma send_loop_raises (w : world) (p : tweet) (pre post : list Z) (c : Z)
    (d : database) :
  sends_succeed w p pre -> get_channel w c = true ->
  send_ok w c (render p) = false ->
  for_each (pre ++ c :: post) (send_to_channel w p) d
  = (Raise DiscordError, d, sends w p pre ++ [SendRaised c (tweet_id p)]).
Proof.
  intros Hpre Hc Hs. induction pre as [|x pre IH].
  - simpl app. rewrite for_each_cons. unfold send_to_channel at 1.
    now rewrite Hc, Hs.
  - simpl app. rewrite for_each_cons. unfold send_to_channel at 1.
    assert (Hrest : sends_succeed w p pre)
      by (intros y Hy; apply Hpre; now right).
    unfold sends. simpl filter. destruct (get_channel w x) eqn:G.
    + rewrite (Hpre x (or_introl eq_refl) G). unfold emit.
      now rewrite (IH Hrest).
    + unfold ret. now rewrite (IH Hrest).
Qed.

Section StallFacts.
Context {V : Vectorizer}.

Lemma stream_tweets_raises (w : world) (d : database) (a : account_row)
    (others : list account_row) (posts newer : list tweet) (p : tweet)
    (pre post : list Z) (c : Z) :
  monitored_twitter_accounts d = a :: others ->
  timeline w (twitter_id a) = Some posts ->
  remove_similar_headlines_tfidf (fetched a posts)
    default_similarity_threshold = Some (newer ++ [p]) ->
  channel_ids_of d (acc_id a) = pre ++ c :: post ->
  sends_succeed w p pre -> get_channel w c = true ->
  send_ok w c (render p) = false ->
  stream_tweets w d
  = (Raise DiscordError, d, sends w p pre ++ [SendRaised c (tweet_id p)]).
Proof.
  intros Ha T U Hc Hpre Hg Hs.
  rewrite stream_tweets_unfold, Ha, for_each_cons, process_account_unfold.
  rewrite T, U, rev_app_distr. simpl rev. simpl app.
  rewrite for_each_cons, deliver_tweet_unfold, Hc.
  now rewrite (send_loop_raises w p pre post c d Hpre Hg Hs).
Qed.
End StallFacts.

(** X14.  A persistent send error stalls the bot: when the send of the
    oldest surviving post of the first account raises on some channel,
    every cycle in that world ends there with the database untouched, so
    each cycle sends the post again to the channels before the failing
    one, and neither the later channels nor the other accounts are ever
    served. *)
Theorem persistent_send_error_stalls (V : Vectorizer) (w : world)
    (d : database) (a : account_row) (others : list account_row)
    (posts newer : list tweet) (p : tweet) (pre post : list Z) (c : Z)
    (n : nat)
    (Haccounts : monitored_twitter_accounts d = a :: others)
    (Hfetch : timeline w (twitter_id a) = Some posts)
    (Hdedupe : remove_similar_headlines_tfidf (fetched a posts)
                 default_similarity_threshold = Some (newer ++ [p]))
    (Hchannels : channel_ids_of d (acc_id a) = pre ++ c :: post)
    (Hpre : sends_succeed w p pre)
    (Hresolves : get_channel w c = true)
    (Hraises : send_ok w c (render p) = false) :
  tweet_streamer (repeat w n) d
  = (d, List.concat
          (repeat (sends w p pre
                     ++ [SendRaised c (tweet_id p); StreamErrorPrinted])
                  n)).
Proof.
  pose proof (stream_tweets_raises w d a others posts newer p pre post c
                Haccounts Hfetch Hdedupe Hchannels Hpre Hresolves Hraises)
    as E.
  induction n as [|n IH]; [reflexivity|].
  simpl. rewrite E, IH. now rewrite <- !app_assoc.
Qed.

(** ** Commands and cycles *)

(** X15.  The [!start] command and a polling cycle do not see each other:
    storing a subscription row before a cycle gives the same result and
    the same events as storing it after, and the same database. *)
Theorem start_commutes_with_cycle (V : Vectorizer) (w : world)
    (d : database) (account : string) (channel : Z) (rts rps media : bool)
    (threshold : Q) :
  stream_tweets w
    (add_twitter_channel d account channel rts rps media threshold)
  = on_db (fun d' => add_twitter_channel d' account channel rts rps media
                                        threshold)
          (stream_tweets w d).
Proof.
  unfold add_twitter_channel at 1. rewrite stream_tweets_swap.
  pose proof (stream_tweets_frame w d) as (H1 & H2 & _).
  destruct (stream_tweets w d) as [[r d1] ev1].
  unfold db_of in *. simpl in *. unfold add_twitter_channel.
  now rewrite H1, H2.
Qed.

(** ** [add_twitter_account] *)

Lemma find_snoc {A} (f : A -> bool) (l : list A) (x : A) :
  find f l = None -> find f (l ++ [x]) = if f x then Some x else None.
Proof.
  induction l as [|y l IH]; simpl; [reflexivity|].
  destruct (f y); [discriminate|exact IH].
Qed.

Lemma channel_ids_snoc (d : database) (links : list (Z * Z)) (id c : Z) :
  twitter_account_channels d = links ++ [(id, c)] ->
  In c (channel_ids_of d id).
Proof.
  intros E. unfold channel_ids_of. rewrite E. apply in_map_iff.
  exists (id, c). split; [reflexivity|]. apply filter_In. split.
  - apply in_or_app. right. now left.
  - apply Z.eqb_refl.
Qed.

(** X16.  Registration keeps the keys of the account table: when account
    ids and Twitter ids are unique and the generated ids in use are below
    the counter, they still are after [add_twitter_account]; an account
    already monitored is not registered twice. *)
Theorem registration_keeps_keys_unique (w : world) (d d' : database)
    (handle : string) (channel : Z)
    (Hauto : auto_increment_ok d)
    (Hids : unique_ids d)
    (Htw : NoDup (map twitter_id (monitored_twitter_accounts d)))
    (Hadd : add_twitter_account w d handle channel = Some d') :
  auto_increment_ok d' /\ unique_ids d'
  /\ NoDup (map twitter_id (monitored_twitter_accounts d')).
Proof.
  destruct Hauto as [Hrows Hlinks]. unfold add_twitter_account in Hadd.
  destruct (get_user w handle) as [[uid name]|]; [|discriminate].
  destruct (find _ _) as [r|] eqn:F; injection Hadd as <-;
    unfold auto_increment_ok, unique_ids; simpl.
  - apply find_some in F. destruct F as [Hr _].
    repeat split; auto.
    intros l Hl. apply in_app_or in Hl. destruct Hl as [Hl|[<-|[]]]; auto.
    simpl. auto.
  - repeat split.
    + intros r Hr. apply in_app_or in Hr. destruct Hr as [Hr|[<-|[]]].
      * specialize (Hrows r Hr). lia.
      * simpl. lia.
    + intros l Hl. apply in_app_or in Hl. destruct Hl as [Hl|[<-|[]]].
      * specialize (Hlinks l Hl). lia.
      * simpl. lia.
    + rewrite map_app. simpl. apply NoDup_app; [exact Hids| |].
      * repeat constructor. intros [].
      * intros x Hx [<-|[]]. apply in_map_iff in Hx.
        destruct Hx as (r & Hr & Hin). specialize (Hrows r Hin). lia.
    + rewrite map_app. simpl. apply NoDup_app; [exact Htw| |].
      * repeat constructor. intros [].
      * intros x Hx [<-|[]]. apply in_map_iff in Hx.
        destruct Hx as (r & Hr & Hin).
        apply (find_none _ _ F) in Hin. apply Z.eqb_neq in Hin. congruence.
Qed.

(** X17.  After [add_twitter_account] for a handle Twitter knows, the
    account is found by its Twitter id and the channel is among its
    channels; a row that existed is the one found, with its cursor, and the
    account table is unchanged; a new row has no cursor. *)
Theorem registration_links_channel (w : world) (d : database)
    (handle name : string) (channel uid : Z)
    (Huser : get_user w handle = Some (uid, name)) :
  exists d' r,
    add_twitter_account w d handle channel = Some d'
    /\ find (fun x => twitter_id x =? uid) (monitored_twitter_accounts d')
       = Some r
    /\ In channel (channel_ids_of d' (acc_id r))
    /\ match find (fun x => twitter_id x =? uid)
                  (monitored_twitter_accounts d) with
       | Some r0 =>
           r = r0
           /\ monitored_twitter_accounts d' = monitored_twitter_accounts d
       | None => r = mkAccount (monitored_auto d) uid name None
       end.
Proof.
  unfold add_twitter_account. rewrite Huser.
  destruct (find _ _) as [r0|] eqn:F.
  - eexists _, r0. split; [reflexivity|]. simpl. rewrite F.
    split; [reflexivity|]. split; [|now split].
    eapply channel_ids_snoc. reflexivity.
  - eexists _, _. split; [reflexivity|]. simpl.
    rewrite (find_snoc _ _ _ F). simpl. rewrite Z.eqb_refl.
    split; [reflexivity|]. split; [|reflexivity].
    eapply channel_ids_snoc. reflexivity.
Qed.

Lemma channel_ids_fresh (d : database) (id c : Z) :
  (forall l, In l (twitter_account_channels d) -> fst l < id) ->
  map snd (filter (fun l => fst l =? id)
                  (twitter_account_channels d ++ [(id, c)]))
  = [c].
Proof.
  intros H. rewrite filter_app, filter_none.
  - simpl. now rewrite Z.eqb_refl.
  - intros l Hl. apply Z.eqb_neq. specialize (H l Hl). lia.
Qed.

(** X18.  Subscribing a handle that was not monitored and then polling it:
    whatever the length of the timeline, the first pass over the new
    account sends only the most recent post, to the subscribing channel,
    and sets the cursor to it. *)
Theorem first_cycle_after_subscribing (V : Vectorizer) (w0 w : world)
    (d : database) (handle name : string) (channel uid : Z) (p : tweet)
    (older : list tweet)
    (Huser : get_user w0 handle = Some (uid, name))
    (Hnew : find (fun x => twitter_id x =? uid)
                 (monitored_twitter_accounts d) = None)
    (Hauto : auto_increment_ok d)
    (Hfetch : timeline w uid = Some (p :: older))
    (Hresolves : get_channel w channel = true)
    (Hsend : send_ok w channel (render p) = true) :
  exists d',
    add_twitter_account w0 d handle channel = Some d'
    /\ In (mkAccount (monitored_auto d) uid name None)
          (monitored_twitter_accounts d')
    /\ process_account w (mkAccount (monitored_auto d) uid name None) d'
       = (Ok tt, set_cursor (monitored_auto d) (tweet_id p) d',
          [Sent channel (tweet_id p) (render p);
           CursorSet (monitored_auto d) (tweet_id p)]).
Proof.
  unfold add_twitter_account. rewrite Huser, Hnew.
  eexists. split; [reflexivity|]. split.
  - simpl. apply in_or_app. right. now left.
  - rewrite process_account_unfold. simpl twitter_id. rewrite Hfetch.
    change (fetched (mkAccount (monitored_auto d) uid name None)
                    (p :: older)) with [p].
    rewrite remove_similar_single. simpl rev.
    rewrite for_each_cons, deliver_tweet_ok.
    + unfold channel_ids_of. simpl twitter_account_channels.
      rewrite channel_ids_fresh by (destruct Hauto as [_ H]; exact H).
      unfold sends. simpl. now rewrite Hresolves.
    + unfold channel_ids_of. simpl twitter_account_channels.
      rewrite channel_ids_fresh by (destruct Hauto as [_ H]; exact H).
      intros c [<-|[]] _. exact Hsend.
Qed.

(** ** [post_tweet_to_discord] *)

Lemma max_from_spec (rest : list variant) :
  forall pre mid best,
    (forall v, In v pre -> rate v < rate best) ->
    (forall v, In v mid -> rate v <= rate best) ->
    exists pre' post',
      pre ++ best :: mid ++ rest = pre' ++ max_from best rest :: post'
      /\ (forall v, In v pre' -> rate v < rate (max_from best rest))
      /\ (forall v, In v post' -> rate v <= rate (max_from best rest)).
Proof.
  induction rest as [|x rest IH]; intros pre mid best Hpre Hmid; simpl.
  - exists pre, mid. now rewrite app_nil_r.
  - destruct (rate best <? rate x) eqn:E.
    + apply Z.ltb_lt in E.
      destruct (IH (pre ++ best :: mid) [] x) as (pre' & post' & Heq & H);
        [|intros v []|].
      * intros v Hv. apply in_app_or in Hv.
        destruct Hv as [Hv|[<-|Hv]]; [specialize (Hpre v Hv)|
                                      |specialize (Hmid v Hv)]; lia.
      * exists pre', post'. split; [|exact H].
        rewrite <- Heq, <- app_assoc. reflexivity.
    + apply Z.ltb_ge in E.
      destruct (IH pre (mid ++ [x]) best Hpre) as (pre' & post' & Heq & H).
      * intros v Hv. apply in_app_or in Hv.
        destruct Hv as [Hv|[<-|[]]]; [now apply Hmid|exact E].
      * exists pre', post'. split; [|exact H].
        rewrite <- Heq, <- app_assoc. reflexivity.
Qed.

(** X5.  [max(variants, key=bitrate)]: of an empty list there is no best
    variant (the call raises); otherwise the best variant is in the list,
    no variant has a higher bitrate, a variant without bitrate counting
    for 0, and every variant before it has a strictly lower one. *)
Theorem best_variant_is_first_maximum (variants : list variant) :
  match best_variant variants with
  | None => variants = []
  | Some best =>
      exists before after,
        variants = before ++ best :: after
        /\ (forall v, In v before -> rate v < rate best)
        /\ (forall v, In v after -> rate v <= rate best)
  end.
Proof.
  destruct variants as [|v rest]; [reflexivity|]. simpl.
  destruct (max_from_spec rest [] [] v) as (pre & post & Heq & H);
    [intros ? []|intros ? []|].
  now exists pre, post.
Qed.

Lemma attach_media_header (tw : v2_tweet) (keys : list string)
    (e e' : embed) (k : string) :
  attach_media tw keys e k = inr e' ->
  embed_title e' = embed_title e /\ embed_url e' = embed_url e
  /\ embed_color e' = embed_color e.
Proof.
  unfold attach_media.
  destruct (includes_media tw) as [ms|]; [|discriminate].
  destruct (index k keys) as [i|]; [|discriminate].
  destruct (nth_error ms i) as [m|]; [|discriminate].
  destruct (media_url m) as [u|]; [|discriminate].
  destruct (_ || _).
  - intros H. injection H as <-. auto.
  - destruct (String.eqb (media_type m) "video").
    + destruct (video_variants m) as [vs|]; [|discriminate].
      destruct (best_variant vs); [|discriminate].
      intros H. injection H as <-. auto.
    + intros H. injection H as <-. auto.
Qed.

Lemma attach_all_header (tw : v2_tweet) (keys todo : list string) :
  forall e e',
    attach_all tw keys e todo = inr e' ->
    embed_title e' = embed_title e /\ embed_url e' = embed_url e
    /\ embed_color e' = embed_color e.
Proof.
  induction todo as [|k todo IH]; simpl; intros e e' H.
  - injection H as <-. auto.
  - destruct (attach_media tw keys e k) as [err|e1] eqn:E; [discriminate|].
    destruct (attach_media_header _ _ _ _ _ E) as (A & B & C).
    destruct (IH _ _ H) as (A' & B' & C'). repeat split; congruence.
Qed.

(** X6.  Whenever [post_tweet_to_discord] sends an embed, the channel
    resolved, the embed carries the tweet's text as title, the permalink
    of the tweet's id as url and the fixed colour, and without media keys
    it has neither image nor description. *)
Theorem posted_embed_header (c : client) (tw : v2_tweet) (channel_id : Z)
    (e : embed) (H : post_tweet_to_discord c tw channel_id = inr e) :
  client_get_channel c channel_id = true
  /\ embed_title e = data_text tw
  /\ embed_url e = permalink (data_id tw)
  /\ embed_color e = twitter_blue
  /\ (media_keys_of tw = [] -> e = base_embed tw).
Proof.
  unfold post_tweet_to_discord in H.
  destruct (attach_all _ _ _ _) as [err|e1] eqn:A; [discriminate|].
  destruct (client_get_channel c channel_id); [|discriminate].
  destruct (client_send c channel_id e1); [|discriminate].
  injection H as <-.
  destruct (attach_all_header _ _ _ _ _ A) as (T & U & C).
  repeat split; auto.
  intros K. rewrite K in A. simpl in A. now injection A.
Qed.

Lemma index_fresh (k : string) (done rest : list string) :
  ~ In k done -> index k (done ++ k :: rest) = Some (List.length done).
Proof.
  induction done as [|x done IH]; simpl; intros H.
  - now rewrite String.eqb_refl.
  - destruct (String.eqb x k) eqn:E.
    + apply String.eqb_eq in E. exfalso. apply H. now left.
    + rewrite IH; [reflexivity|]. intros Hin. apply H. now right.
Qed.

Lemma NoDup_fresh {A} (done todo : list A) (k : A) :
  NoDup (done ++ k :: todo) -> ~ In k done /\ NoDup ((done ++ [k]) ++ todo).
Proof.
  intros H. split.
  - apply NoDup_remove_2 in H. intros Hin. apply H. apply in_or_app.
    now left.
  - now rewrite <- app_assoc.
Qed.

(** With distinct keys the loop reads the media by position only. *)
Lemma attach_all_positional (tw tw' : v2_tweet) (todo : list string) :
  includes_media tw = includes_media tw' ->
  forall todo' done done' e,
    NoDup (done ++ todo) -> NoDup (done' ++ todo') ->
    List.length done = List.length done' ->
    List.length todo = List.length todo' ->
    attach_all tw (done ++ todo) e todo
    = attach_all tw' (done' ++ todo') e todo'.
Proof.
  intros Hinc.
  induction todo as [|k todo IH]; intros [|k' todo'] done done' e Hn Hn' Hd Ht;
    try discriminate; [reflexivity|].
  simpl in Ht. injection Ht as Ht.
  destruct (NoDup_fresh _ _ _ Hn) as [Hk Hn1].
  destruct (NoDup_fresh _ _ _ Hn') as [Hk' Hn1'].
  simpl. unfold attach_media.
  rewrite (index_fresh k done todo Hk), (index_fresh k' done' todo' Hk').
  rewrite <- Hinc, <- Hd.
  assert (Hlen : List.length (done ++ [k]) = List.length (done' ++ [k']))
    by (rewrite !length_app; simpl; lia).
  pose proof (fun e1 => IH todo' (done ++ [k]) (done' ++ [k']) e1
                          Hn1 Hn1' Hlen Ht) as Hrec.
  rewrite <- !app_assoc in Hrec. simpl in Hrec.
  destruct (includes_media tw) as [ms|]; [|reflexivity].
  destruct (nth_error ms (List.length done)) as [m|]; [|reflexivity].
  destruct (media_url m) as [u|]; [|reflexivity].
  destruct (_ || _); [apply Hrec|].
  destruct (String.eqb (media_type m) "video"); [|apply Hrec].
  destruct (video_variants m) as [vs|]; [|reflexivity].
  destruct (best_variant vs); [apply Hrec|reflexivity].
Qed.

(** X7.  The media keys are never matched against the media: with
    distinct keys the i-th key takes the i-th element of
    [includes.media], so two payloads that differ only in the names of
    their (distinct, equally many) keys give the same outcome. *)
Theorem media_keys_matter_by_position (c : client) (text id : string)
    (includes : option (list media_object)) (keys keys' : list string)
    (channel_id : Z)
    (Hkeys : NoDup keys) (Hkeys' : NoDup keys')
    (Hlen : List.length keys = List.length keys') :
  post_tweet_to_discord c (mkV2 text id (Some (Some keys)) includes)
                        channel_id
  = post_tweet_to_discord c (mkV2 text id (Some (Some keys')) includes)
                          channel_id.
Proof.
  unfold post_tweet_to_discord, media_keys_of, base_embed. simpl.
  now rewrite (attach_all_positional
                 (mkV2 text id (Some (Some keys)) includes)
                 (mkV2 text id (Some (Some keys')) includes)
                 keys eq_refl keys' [] [] _ Hkeys Hkeys' eq_refl Hlen).
Qed.

Lemma attach_all_app (tw : v2_tweet) (keys l1 l2 : list string) :
  forall e,
    attach_all tw keys e (l1 ++ l2)
    = match attach_all tw keys e l1 with
      | inl err => inl err
      | inr e1 => attach_all tw keys e1 l2
      end.
Proof.
  induction l1 as [|k l1 IH]; intros e; [reflexivity|].
  simpl. destruct (attach_media tw keys e k); [reflexivity|apply IH].
Qed.

Lemma split_at {A} (l : list A) :
  forall n, (n < List.length l)%nat ->
            exists pre k post, l = pre ++ k :: post /\ List.length pre = n.
Proof.
  induction l as [|x l IH]; simpl; intros n Hn; [lia|].
  destruct n as [|n].
  - now exists [], x, l.
  - destruct (IH n) as (pre & k & post & -> & Hlen); [lia|].
    exists (x :: pre), k, post. simpl. now rewrite Hlen.
Qed.

Lemma attach_media_error (tw : v2_tweet) (keys : list string) (e : embed)
    (k : string) (err : post_error) :
  attach_media tw keys e k = inl err ->
  err = PostKeyError \/ err = PostValueError \/ err = PostIndexError.
Proof.
  unfold attach_media.
  destruct (includes_media tw) as [ms|];
    [|intros H; injection H as <-; auto].
  destruct (index k keys) as [i|]; [|intros H; injection H as <-; auto].
  destruct (nth_error ms i) as [m|]; [|intros H; injection H as <-; auto].
  destruct (media_url m) as [u|]; [|intros H; injection H as <-; auto].
  destruct (_ || _); [discriminate|].
  destruct (String.eqb (media_type m) "video"); [|discriminate].
  destruct (video_variants m) as [vs|];
    [|intros H; injection H as <-; auto].
  destruct (best_variant vs); [discriminate|].
  intros H; injection H as <-; auto.
Qed.

Lemma attach_all_error (tw : v2_tweet) (keys todo : list string)
    (err : post_error) :
  forall e,
    attach_all tw keys e todo = inl err ->
    err = PostKeyError \/ err = PostValueError \/ err = PostIndexError.
Proof.
  induction todo as [|k todo IH]; simpl; intros e; [discriminate|].
  destruct (attach_media tw keys e k) as [err'|e1] eqn:E.
  - intros H. injection H as <-. exact (attach_media_error _ _ _ _ _ E).
  - apply IH.
Qed.

Lemma firstn_exact {A} (l1 l2 : list A) :
  firstn (List.length l1) (l1 ++ l2) = l1.
Proof. induction l1 as [|x l1 IH]; simpl; [reflexivity|now rewrite IH]. Qed.

(** X8.  With distinct media keys and fewer media than keys the media
    loop raises, so [channel.send] is never reached: the outcome is the
    error of the loop, a [KeyError], [ValueError] or [IndexError], whatever
    the client; it is the [IndexError] of the first key without a medium
    at its position when the media before it were all attached. *)
Theorem more_keys_than_media_never_posts (c : client) (tw : v2_tweet)
    (channel_id : Z) (ms : list media_object)
    (Hincludes : includes_media tw = Some ms)
    (Hkeys : NoDup (media_keys_of tw))
    (Hfew : (List.length ms < List.length (media_keys_of tw))%nat) :
  exists err,
    attach_all tw (media_keys_of tw) (base_embed tw) (media_keys_of tw)
    = inl err
    /\ post_tweet_to_discord c tw channel_id = inl err
    /\ (err = PostKeyError \/ err = PostValueError \/ err = PostIndexError)
    /\ (forall e1,
           attach_all tw (media_keys_of tw) (base_embed tw)
                      (firstn (List.length ms) (media_keys_of tw))
           = inr e1 ->
           err = PostIndexError).
Proof.
  unfold post_tweet_to_discord.
  destruct (split_at _ _ Hfew) as (pre & k & post & E & Hlen).
  assert (Loop : exists err,
             attach_all tw (media_keys_of tw) (base_embed tw)
                        (media_keys_of tw) = inl err
             /\ (forall e1,
                    attach_all tw (media_keys_of tw) (base_embed tw)
                               (firstn (List.length ms) (media_keys_of tw))
                    = inr e1 ->
                    err = PostIndexError)).
  { assert (H1 : attach_all tw (media_keys_of tw) (base_embed tw)
                            (media_keys_of tw)
                 = attach_all tw (media_keys_of tw) (base_embed tw)
                              (pre ++ k :: post))
      by now rewrite <- E.
    assert (H2 : firstn (List.length ms) (media_keys_of tw) = pre)
      by (rewrite E, <- Hlen; apply firstn_exact).
    rewrite H1, H2, attach_all_app.
    destruct (attach_all tw (media_keys_of tw) (base_embed tw) pre)
      as [err|e1]; [exists err; split; [reflexivity|discriminate]|].
    simpl. unfold attach_media. rewrite Hincludes.
    rewrite E in Hkeys |- *.
    destruct (NoDup_fresh _ _ _ Hkeys) as [Hk _].
    rewrite (index_fresh k pre post Hk), Hlen.
    assert (N : nth_error ms (List.length ms) = None)
      by (apply nth_error_None; lia).
    rewrite N. exists PostIndexError. now split. }
  destruct Loop as (err & Ha & Hidx). exists err.
  split; [exact Ha|]. rewrite Ha. split; [reflexivity|].
  split; [exact (attach_all_error _ _ _ _ _ Ha)|exact Hidx].
Qed.

(** X9.  The last medium decides: when an embed is sent and the keys are
    distinct, a photo or animated gif at the last key's position is the
    image of the embed, and a video there puts into the description the
    link of its best variant. *)
Theorem last_media_decides (c : client) (tw : v2_tweet) (channel_id : Z)
    (e : embed) (ks : list string) (k : string) (ms : list media_object)
    (m : media_object)
    (Hsent : post_tweet_to_discord c tw channel_id = inr e)
    (Hkeys : media_keys_of tw = ks ++ [k])
    (Hdistinct : NoDup (ks ++ [k]))
    (Hincludes : includes_media tw = Some ms)
    (Hlast : nth_error ms (List.length ks) = Some m) :
  (media_type m = "photo" \/ media_type m = "animated_gif" ->
   exists u, media_url m = Some u /\ embed_image e = Some u)
  /\ (media_type m = "video" ->
      exists vs best,
        video_variants m = Some vs /\ best_variant vs = Some best
        /\ embed_description e = Some (video_link best)).
Proof.
  unfold post_tweet_to_discord in Hsent. rewrite Hkeys in Hsent.
  rewrite attach_all_app in Hsent.
  destruct (attach_all tw _ (base_embed tw) ks) as [err|e1];
    [discriminate|].
  simpl in Hsent. unfold attach_media in Hsent.
  destruct (NoDup_fresh _ _ _ Hdistinct) as [Hk _].
  rewrite Hincludes, (index_fresh k ks [] Hk), Hlast in Hsent.
  destruct (media_url m) as [u|]; [|discriminate].
  split.
  - intros Ht.
    assert (P : String.eqb (media_type m) "photo"
                || String.eqb (media_type m) "animated_gif" = true)
      by (destruct Ht as [-> | ->]; reflexivity).
    rewrite P in Hsent.
    destruct (client_get_channel c channel_id); [|discriminate].
    destruct (client_send c channel_id _); [|discriminate].
    injection Hsent as <-. now exists u.
  - intros Ht. rewrite Ht in Hsent. simpl in Hsent.
    destruct (video_variants m) as [vs|] eqn:Ev; [|discriminate].
    destruct (best_variant vs) as [best|] eqn:Eb; [|discriminate].
    destruct (client_get_channel c channel_id); [|discriminate].
    destruct (client_send c channel_id _); [|discriminate].
    injection Hsent as <-. now exists vs, best.
Qed.

(** X19.  Subscribing the same channel to the same handle twice links it
    twice, and every post of the account is then sent to the channel
    twice. *)
Theorem double_subscription_sends_twice (w0 w : world) (d d1 d2 : database)
    (handle name : string) (channel uid : Z) (p : tweet)
    (Huser : get_user w0 handle = Some (uid, name))
    (Hfirst : add_twitter_account w0 d handle channel = Some d1)
    (Hsecond : add_twitter_account w0 d1 handle channel = Some d2) :
  exists r,
    find (fun x => twitter_id x =? uid) (monitored_twitter_accounts d2)
    = Some r
    /\ channel_ids_of d2 (acc_id r)
       = channel_ids_of d (acc_id r) ++ [channel; channel]
    /\ (sends_succeed w p (channel_ids_of d2 (acc_id r)) ->
        get_channel w channel = true ->
        channels_sent (tweet_id p)
                      (events_of (deliver_tweet w (acc_id r) p d2))
        = filter (get_channel w) (channel_ids_of d (acc_id r))
            ++ [channel; channel]).
Proof.
  assert (Hids : forall links id,
             map snd (filter (fun l : Z * Z => fst l =? id)
                             ((links ++ [(id, channel)])
                                ++ [(id, channel)]))
             = map snd (filter (fun l : Z * Z => fst l =? id) links)
                 ++ [channel; channel]).
  { intros links id. rewrite !filter_app, !map_app. simpl.
    rewrite Z.eqb_refl. simpl. now rewrite <- app_assoc. }
  unfold add_twitter_account in Hfirst. rewrite Huser in Hfirst.
  destruct (find _ (monitored_twitter_accounts d)) as [r0|] eqn:F;
    injection Hfirst as <-; unfold add_twitter_account in Hsecond;
    rewrite Huser in Hsecond; simpl in Hsecond.
  - rewrite F in Hsecond. injection Hsecond as <-.
    exists r0. simpl. split; [exact F|].
    assert (E : channel_ids_of
                  (mkDb (twitter_channels d) (twitter_channels_auto d)
                        (monitored_twitter_accounts d) (monitored_auto d)
                        ((twitter_account_channels d
                            ++ [(acc_id r0, channel)])
                           ++ [(acc_id r0, channel)])) (acc_id r0)
                = channel_ids_of d (acc_id r0) ++ [channel; channel])
      by apply Hids.
    split; [exact E|]. intros Hs Hg.
    rewrite (deliver_tweet_channels _ _ _ _ Hs), E, filter_app. simpl.
    now rewrite Hg.
  - rewrite (find_snoc _ _ _ F) in Hsecond. simpl in Hsecond.
    rewrite Z.eqb_refl in Hsecond. injection Hsecond as <-.
    eexists. simpl. rewrite (find_snoc _ _ _ F). simpl.
    rewrite Z.eqb_refl. split; [reflexivity|]. simpl acc_id.
    match goal with
    | |- channel_ids_of ?d2 ?id = _ /\ _ =>
        assert (E : channel_ids_of d2 id
                    = channel_ids_of d id ++ [channel; channel])
          by apply Hids
    end.
    split; [exact E|]. intros Hs Hg.
    rewrite (deliver_tweet_channels _ _ _ _ Hs), E, filter_app. simpl.
    now rewrite Hg.
Qed.

(** X20.  A batch the vectorizer cannot fit stalls the bot without a
    single message: when [remove_similar_headlines_tfidf] raises on the
    posts fetched for the first account, every cycle in that world ends
    there, with nothing sent and no cursor moved. *)
Theorem vectorizer_error_stalls (V : Vectorizer) (w : world) (d : database)
    (a : account_row) (others : list account_row) (posts : list tweet)
    (n : nat)
    (Haccounts : monitored_twitter_accounts d = a :: others)
    (Hfetch : timeline w (twitter_id a) = Some posts)
    (Hraises : remove_similar_headlines_tfidf (fetched a posts)
                 default_similarity_threshold = None) :
  tweet_streamer (repeat w n) d = (d, repeat StreamErrorPrinted n).
Proof.
  assert (E : stream_tweets w d = (Raise ValueError, d, [])).
  { rewrite stream_tweets_unfold, Haccounts, for_each_cons.
    now rewrite process_account_unfold, Hfetch, Hraises. }
  induction n as [|n IH]; [reflexivity|].
  simpl. now rewrite E, IH.
Qed.

(** ** Cursor advance *)

Lemma send_loop_general (w : world) (p : tweet) (chs : list Z)
    (d : database) :
  for_each chs (send_to_channel w p) d
  = (if all_sends_ok w p chs then Ok tt else Raise DiscordError, d,
     attempt w p chs).
Proof.
  induction chs as [|c chs IH]; [reflexivity|].
  rewrite for_each_cons. unfold send_to_channel at 1.
  unfold all_sends_ok in *. simpl.
  destruct (get_channel w c); simpl.
  - destruct (send_ok w c (render p)); simpl; [|reflexivity].
    unfold emit. rewrite IH. now destruct (forallb _ chs).
  - unfold ret. rewrite IH. now destruct (forallb _ chs).
Qed.

Lemma attempt_all_ok (w : world) (p : tweet) (chs : list Z) :
  all_sends_ok w p chs = true -> attempt w p chs = sends w p chs.
Proof.
  unfold all_sends_ok, sends.
  induction chs as [|c chs IH]; simpl; [reflexivity|].
  destruct (get_channel w c); simpl.
  - destruct (send_ok w c (render p)); simpl; [|discriminate].
    intros H. now rewrite IH.
  - exact IH.
Qed.

Lemma all_sends_ok_spec (w : world) (p : tweet) (chs : list Z) :
  all_sends_ok w p chs = true <-> sends_succeed w p chs.
Proof.
  unfold all_sends_ok, sends_succeed. rewrite forallb_forall. split.
  - intros H c Hc G. specialize (H c Hc). now rewrite G in H.
  - intros H c Hc. destruct (get_channel w c) eqn:G; [|reflexivity].
    simpl. now apply H.
Qed.

Lemma served_unserved (w : world) (chs : list Z) (l : list tweet) :
  l = served w chs l ++ unserved w chs l.
Proof.
  induction l as [|p l IH]; [reflexivity|].
  simpl. destruct (all_sends_ok w p chs); [|reflexivity].
  simpl. now rewrite <- IH.
Qed.

Lemma deliver_tweet_general (w : world) (id : Z) (p : tweet)
    (d : database) :
  deliver_tweet w id p d
  = if all_sends_ok w p (channel_ids_of d id)
    then (Ok tt, set_cursor id (tweet_id p) d,
          sends w p (channel_ids_of d id) ++ [CursorSet id (tweet_id p)])
    else (Raise DiscordError, d, attempt w p (channel_ids_of d id)).
Proof.
  rewrite deliver_tweet_unfold, send_loop_general.
  destruct (all_sends_ok w p (channel_ids_of d id)) eqn:E; [|reflexivity].
  now rewrite (attempt_all_ok _ _ _ E).
Qed.

(** The loop over the posts, whatever the sends do: the posts before the
    first raising send are delivered and their cursor set, that send ends
    the loop. *)
Lemma deliver_all_general (w : world) (id : Z) (l : list tweet) :
  forall d,
    for_each l (deliver_tweet w id) d
    = (match unserved w (channel_ids_of d id) l with
       | [] => Ok tt
       | _ :: _ => Raise DiscordError
       end,
       advance id (served w (channel_ids_of d id) l) d,
       deliveries w id (channel_ids_of d id)
                  (served w (channel_ids_of d id) l)
       ++ match unserved w (channel_ids_of d id) l with
          | [] => []
          | p :: _ => attempt w p (channel_ids_of d id)
          end).
Proof.
  induction l as [|p l IH]; intros d; [reflexivity|].
  rewrite for_each_cons, deliver_tweet_general. simpl.
  destruct (all_sends_ok w p (channel_ids_of d id)); [|reflexivity].
  rewrite IH.
  change (channel_ids_of (set_cursor id (tweet_id p) d) id)
    with (channel_ids_of d id).
  simpl. now rewrite <- !app_assoc.
Qed.

Lemma cursor_updates_attempt (w : world) (p : tweet) (chs : list Z)
    (id : Z) :
  cursor_updates id (attempt w p chs) = [].
Proof.
  induction chs as [|c chs IH]; [reflexivity|].
  simpl. destruct (get_channel w c); [|exact IH].
  destruct (send_ok w c (render p)); [exact IH|reflexivity].
Qed.

Lemma cursor_updates_deliveries (w : world) (id id' : Z) (chs : list Z)
    (l : list tweet) :
  cursor_updates id' (deliveries w id chs l)
  = if id =? id' then map tweet_id l else [].
Proof.
  induction l as [|p l IH]; simpl; [now destruct (id =? id')|].
  rewrite <- app_assoc, cursor_updates_app, cursor_updates_sends. simpl.
  rewrite IH. now destruct (id =? id').
Qed.

Lemma never_regresses_app (c : option Z) (u1 u2 : list Z) :
  never_regresses c (u1 ++ u2)
  <-> never_regresses c u1 /\ never_regresses (latest c u1) u2.
Proof.
  revert c. induction u1 as [|t u1 IH]; intros c; simpl; [tauto|].
  rewrite IH. unfold latest. simpl. tauto.
Qed.

Lemma latest_app (c : option Z) (u1 u2 : list Z) :
  latest c (u1 ++ u2) = latest (latest c u1) u2.
Proof. apply fold_left_app. Qed.

Lemma subsequence_in {A} (l1 l2 : list A) :
  subsequence l1 l2 -> forall x, In x l1 -> In x l2.
Proof.
  induction 1; intros y Hy; simpl in *; [easy| |auto].
  destruct Hy as [->|Hy]; auto.
Qed.

Lemma subsequence_sorted {A} (R : A -> A -> Prop) (l1 l2 : list A) :
  subsequence l1 l2 -> StronglySorted R l2 -> StronglySorted R l1.
Proof.
  induction 1 as [|x l1 l2 Hs IH|x l1 l2 Hs IH]; intros H;
    [constructor| |].
  - apply StronglySorted_inv in H. destruct H as [H1 H2].
    constructor; [now apply IH|].
    rewrite Forall_forall in *. intros y Hy. apply H2.
    now apply (subsequence_in _ _ Hs).
  - apply StronglySorted_inv in H. now apply IH.
Qed.

Lemma subsequence_filter {A} (f : A -> bool) (l : list A) :
  subsequence (filter f l) l.
Proof.
  induction l as [|x l IH]; simpl; [constructor|].
  destruct (f x); now constructor.
Qed.

Lemma subsequence_firstn {A} (n : nat) (l : list A) :
  subsequence (firstn n l) l.
Proof.
  revert n. induction l as [|x l IH]; intros [|n]; simpl;
    try constructor; auto.
  clear. induction l; constructor; assumption.
Qed.

Lemma sorted_snoc {A} (R : A -> A -> Prop) (l : list A) (x : A) :
  StronglySorted R l -> Forall (fun y => R y x) l ->
  StronglySorted R (l ++ [x]).
Proof.
  induction 1 as [|y l Hs IH Hy]; intros H; simpl.
  - constructor; constructor.
  - inversion H as [|? ? Hyx Hl]; subst.
    constructor; [now apply IH|].
    apply Forall_app. split; [exact Hy|now constructor].
Qed.

Lemma sorted_rev {A} (R : A -> A -> Prop) (l : list A) :
  StronglySorted R l -> StronglySorted (fun x y => R y x) (rev l).
Proof.
  induction 1 as [|x l Hs IH Hx]; simpl; [constructor|].
  apply sorted_snoc; [exact IH|].
  rewrite Forall_forall in *. intros y Hy. apply Hx. now apply in_rev.
Qed.

Lemma sorted_prefix {A} (R : A -> A -> Prop) (l1 l2 : list A) :
  StronglySorted R (l1 ++ l2) -> StronglySorted R l1.
Proof.
  induction l1 as [|x l1 IH]; simpl; intros H; [constructor|].
  apply StronglySorted_inv in H. destruct H as [H1 H2].
  constructor; [now apply IH|].
  apply Forall_app in H2. tauto.
Qed.

(** Ascending ids, all at or above the cursor, never regress. *)
Lemma never_regresses_sorted (l : list tweet) :
  forall c,
    (forall p, In p l -> cursor_le c (Some (tweet_id p))) ->
    StronglySorted (fun p q => tweet_id p <= tweet_id q) l ->
    never_regresses c (map tweet_id l).
Proof.
  induction l as [|p l IH]; intros c Hc Hs; simpl; [exact I|].
  apply StronglySorted_inv in Hs. destruct Hs as [Hs Hp].
  split; [apply Hc; now left|].
  apply IH; [|exact Hs]. intros q Hq. simpl.
  rewrite Forall_forall in Hp. now apply Hp.
Qed.

Lemma cursor_of_set_cursor_present (id tid : Z) (d : database) :
  In id (map acc_id (monitored_twitter_accounts d)) ->
  cursor_of (set_cursor id tid d) id = Some tid.
Proof.
  intros Hin. apply in_map_iff in Hin. destruct Hin as (a & <- & Ha).
  now apply cursor_of_set_cursor_row.
Qed.

Lemma cursor_of_advance_other (id id' : Z) (l : list tweet) :
  id' <> id ->
  forall d, cursor_of (advance id l d) id' = cursor_of d id'.
Proof.
  intros Hne. induction l as [|p l IH]; intros d; [reflexivity|].
  change (advance id (p :: l) d)
    with (advance id l (set_cursor id (tweet_id p) d)).
  rewrite IH. now apply cursor_of_set_cursor_other.
Qed.

Lemma cursor_of_advance_same (id : Z) (l : list tweet) :
  forall d,
    In id (map acc_id (monitored_twitter_accounts d)) ->
    cursor_of (advance id l d) id
    = latest (cursor_of d id) (map tweet_id l).
Proof.
  induction l as [|p l IH]; intros d Hin; [reflexivity|].
  change (advance id (p :: l) d)
    with (advance id l (set_cursor id (tweet_id p) d)).
  rewrite IH by now rewrite ids_set_cursor.
  now rewrite (cursor_of_set_cursor_present id (tweet_id p) d Hin).
Qed.

Lemma subsequence_trans {A} (l1 l2 l3 : list A) :
  subsequence l1 l2 -> subsequence l2 l3 -> subsequence l1 l3.
Proof.
  intros H12 H23. revert l1 H12.
  induction H23 as [|x l2 l3 H IH|x l2 l3 H IH]; intros l1 H12.
  - exact H12.
  - inversion H12; subst; constructor; auto.
  - constructor. auto.
Qed.

Lemma fetched_subsequence (a : account_row) (posts : list tweet) :
  subsequence (fetched a posts) posts.
Proof.
  unfold fetched. destruct (truthy (last_tweet_id a));
    [|apply subsequence_firstn].
  destruct (last_tweet_id a); [|apply subsequence_firstn].
  eapply subsequence_trans;
    [apply subsequence_firstn|apply subsequence_filter].
Qed.

Lemma unserved_head (w : world) (chs : list Z) (l : list tweet)
    (p : tweet) (rest : list tweet) :
  unserved w chs l = p :: rest -> all_sends_ok w p chs = false.
Proof.
  induction l as [|q l IH]; simpl; [discriminate|].
  destruct (all_sends_ok w q chs) eqn:E; [exact IH|].
  intros H. injection H as <- _. exact E.
Qed.

Lemma unserved_none (w : world) (chs : list Z) (l : list tweet) :
  (forall p, In p l -> all_sends_ok w p chs = true) ->
  unserved w chs l = [].
Proof.
  induction l as [|q l IH]; intros H; [reflexivity|].
  simpl. rewrite (H q (or_introl eq_refl)). apply IH.
  intros p Hp. apply H. now right.
Qed.

Lemma raising_channel (w : world) (p : tweet) (chs : list Z) :
  all_sends_ok w p chs = false ->
  exists c, In c chs /\ get_channel w c = true
            /\ send_ok w c (render p) = false.
Proof.
  unfold all_sends_ok. induction chs as [|c chs IH]; simpl; [discriminate|].
  destruct (get_channel w c) eqn:G; simpl.
  - destruct (send_ok w c (render p)) eqn:S; simpl.
    + intros H. destruct (IH H) as (c' & ? & ? & ?). exists c'. auto.
    + intros _. exists c. auto.
  - intros H. destruct (IH H) as (c' & ? & ? & ?). exists c'. auto.
Qed.

Section HistoryFacts.
Context {V : Vectorizer}.

Lemma process_account_general (w : world) (a : account_row) (d : database)
    (posts unique_tweets : list tweet) :
  timeline w (twitter_id a) = Some posts ->
  remove_similar_headlines_tfidf (fetched a posts)
    default_similarity_threshold = Some unique_tweets ->
  process_account w a d
  = (match unserved w (channel_ids_of d (acc_id a)) (rev unique_tweets) with
     | [] => Ok tt
     | _ :: _ => Raise DiscordError
     end,
     advance (acc_id a)
       (served w (channel_ids_of d (acc_id a)) (rev unique_tweets)) d,
     deliveries w (acc_id a) (channel_ids_of d (acc_id a))
       (served w (channel_ids_of d (acc_id a)) (rev unique_tweets))
     ++ match unserved w (channel_ids_of d (acc_id a))
                       (rev unique_tweets) with
        | [] => []
        | p :: _ => attempt w p (channel_ids_of d (acc_id a))
        end).
Proof.
  intros T U. rewrite process_account_unfold, T, U.
  apply deliver_all_general.
Qed.

(** One account: no update regresses and the stored cursor is the latest
    update. *)
Lemma process_account_history (w : world) (a : account_row)
    (d : database) :
  positive_ids w -> newest_first w ->
  In (acc_id a) (map acc_id (monitored_twitter_accounts d)) ->
  cursor_of d (acc_id a) = last_tweet_id a ->
  forall id,
    never_regresses (cursor_of d id)
      (cursor_updates id (events_of (process_account w a d)))
    /\ cursor_of (db_of (process_account w a d)) id
       = latest (cursor_of d id)
           (cursor_updates id (events_of (process_account w a d))).
Proof.
  intros Hpos Hnew Hrow Hsync id.
  destruct (timeline w (twitter_id a)) as [posts|] eqn:T.
  - destruct (remove_similar_headlines_tfidf (fetched a posts)
                default_similarity_threshold) as [u|] eqn:U.
    + rewrite (process_account_general w a d posts u T U).
      unfold events_of, db_of. simpl.
      rewrite cursor_updates_app, cursor_updates_deliveries.
      assert (Tail : cursor_updates id
                       match unserved w (channel_ids_of d (acc_id a))
                                      (rev u) with
                       | [] => []
                       | p :: _ => attempt w p (channel_ids_of d (acc_id a))
                       end = []).
      { destruct (unserved _ _ _); [reflexivity|].
        apply cursor_updates_attempt. }
      rewrite Tail, app_nil_r.
      destruct (acc_id a =? id) eqn:Q.
      * apply Z.eqb_eq in Q. subst id. split.
        -- apply never_regresses_sorted.
           ++ intros p Hp. rewrite Hsync.
              assert (Hin : In p (fetched a posts)).
              { apply (remove_similar_incl _ _ _ U), in_rev.
                rewrite (served_unserved w (channel_ids_of d (acc_id a))
                           (rev u)).
                apply in_or_app. now left. }
              apply fetched_in in Hin. destruct Hin as [Hin Hnewer].
              destruct (last_tweet_id a) as [c|] eqn:C; [|exact I].
              simpl. destruct (truthy (Some c)) eqn:Tr.
              ** destruct (Hnewer eq_refl) as (c' & Hc' & Hlt).
                 injection Hc' as <-. lia.
              ** simpl in Tr. apply negb_false_iff, Z.eqb_eq in Tr.
                 subst c. specialize (Hpos _ _ _ T Hin). lia.
           ++ apply sorted_prefix
                with (l2 := unserved w (channel_ids_of d (acc_id a))
                                     (rev u)).
              rewrite <- served_unserved.
              apply (sorted_rev (fun p q => tweet_id q <= tweet_id p)).
              apply subsequence_sorted with (l2 := posts);
                [|exact (Hnew _ _ T)].
              apply subsequence_trans with (l2 := fetched a posts);
                [|apply fetched_subsequence].
              destruct (dedupe_loop_subsequence _ _ _ _ U)
                as (kept & -> & Hk).
              exact Hk.
        -- now apply cursor_of_advance_same.
      * apply Z.eqb_neq in Q. split; [exact I|].
        apply cursor_of_advance_other. congruence.
    + rewrite process_account_unfold, T, U. now split.
  - rewrite process_account_unfold, T. now split.
Qed.

Lemma accounts_loop_history (w : world) (l : list account_row) :
  positive_ids w -> newest_first w ->
  forall d,
    unique_ids d -> incl l (monitored_twitter_accounts d) ->
    NoDup (map acc_id l) ->
    forall id,
      never_regresses (cursor_of d id)
        (cursor_updates id (events_of (for_each l (process_account w) d)))
      /\ cursor_of (db_of (for_each l (process_account w) d)) id
         = latest (cursor_of d id)
             (cursor_updates id
                (events_of (for_each l (process_account w) d))).
Proof.
  intros Hpos Hnew. induction l as [|a l IH]; intros d Hnd Hincl Hl id;
    [now split|].
  rewrite for_each_cons.
  assert (Ha : In a (monitored_twitter_accounts d))
    by (apply Hincl; now left).
  pose proof (process_account_history w a d Hpos Hnew
                (in_map acc_id _ _ Ha) (in_sync_initial d Hnd a Ha) id)
    as [H1 H2].
  pose proof (process_account_ids w a d) as Hids.
  pose proof (process_account_db w a d) as Hdb.
  inversion Hl as [|? ? Hnot Hl']; subst.
  destruct (process_account w a d) as [[[[]|e] d1] ev1];
    unfold events_of, db_of in *; simpl in *; [|now split].
  assert (Hnd1 : unique_ids d1) by (unfold unique_ids; now rewrite Hids).
  assert (Hincl1 : incl l (monitored_twitter_accounts d1)).
  { intros b Hb.
    assert (Hbd : In b (monitored_twitter_accounts d))
      by (apply Hincl; now right).
    destruct Hdb as [-> | (? & p & _ & _ & ->)]; [exact Hbd|].
    simpl. apply in_map_iff. exists b. split; [|exact Hbd].
    unfold set_last_tweet_id.
    destruct (acc_id b =? acc_id a) eqn:Q; [|reflexivity].
    apply Z.eqb_eq in Q. exfalso. apply Hnot. rewrite <- Q.
    now apply in_map. }
  destruct (IH d1 Hnd1 Hincl1 Hl' id) as [H3 H4].
  destruct (for_each l _ d1) as [[r2 d2] ev2]. simpl in *.
  rewrite cursor_updates_app, never_regresses_app, latest_app.
  rewrite <- H2. now split.
Qed.

Lemma stream_tweets_history (w : world) (d : database) (id : Z) :
  positive_ids w -> newest_first w -> unique_ids d ->
  never_regresses (cursor_of d id)
    (cursor_updates id (events_of (stream_tweets w d)))
  /\ cursor_of (db_of (stream_tweets w d)) id
     = latest (cursor_of d id)
         (cursor_updates id (events_of (stream_tweets w d))).
Proof.
  intros Hpos Hnew Hnd. rewrite stream_tweets_unfold.
  apply accounts_loop_history; auto. apply incl_refl.
Qed.

Lemma tweet_streamer_history (ws : list world) :
  Forall positive_ids ws -> Forall newest_first ws ->
  forall d id,
    unique_ids d ->
    never_regresses (cursor_of d id)
      (cursor_updates id (snd (tweet_streamer ws d)))
    /\ cursor_of (fst (tweet_streamer ws d)) id
       = latest (cursor_of d id)
           (cursor_updates id (snd (tweet_streamer ws d))).
Proof.
  induction ws as [|w ws IH]; intros Hpos Hnew d id Hnd; [now split|].
  inversion Hpos as [|? ? Hp Hpos']; subst.
  inversion Hnew as [|? ? Hn Hnew']; subst.
  simpl.
  destruct (stream_tweets_history w d id Hp Hn Hnd) as [H1 H2].
  pose proof (stream_tweets_unique_ids w d Hnd) as Hnd1.
  destruct (stream_tweets w d) as [[r d1] ev1].
  unfold events_of, db_of in *. simpl in *.
  destruct (IH Hpos' Hnew' d1 id Hnd1) as [H3 H4].
  destruct (tweet_streamer ws d1) as [d2 ev2]. simpl in *.
  assert (P : cursor_updates id
                (match r with Ok _ => [] | Raise _ => [StreamErrorPrinted]
                 end ++ ev2) = cursor_updates id ev2)
    by now destruct r.
  rewrite cursor_updates_app, P, never_regresses_app, latest_app.
  rewrite <- H2. now split.
Qed.
End HistoryFacts.

(** C2, as amended.  When the fetch and the dedupe of an account succeed,
    the surviving posts are taken in the reverse of the order Twitter
    returned them (oldest first).  Each is sent to every linked channel
    that resolves and then, directly after its sends and never before,
    the cursor is set to its id, once; a channel that does not resolve is
    skipped and does not stop the advance.  The first post a send of which
    raises ends the processing: the posts before it have been delivered and
    their cursor set, that post's advance and the later posts are left
    out.  Along any sequence of cycles (account ids unique, post ids
    positive, timelines newest first) no update sets a cursor below the
    value it had just before, and the stored cursor is the latest
    update. *)
Theorem cursor_advance_after_fanout (V : Vectorizer) (w : world)
    (d : database) (a : account_row) (posts unique_tweets : list tweet)
    (before after : list world) (id : Z)
    (Hfetch : timeline w (twitter_id a) = Some posts)
    (Hdedupe : remove_similar_headlines_tfidf
                 (fetched a posts) default_similarity_threshold
               = Some unique_tweets)
    (Hids : unique_ids d)
    (Hpos : Forall positive_ids (before ++ after))
    (Hnew : Forall newest_first (before ++ after)) :
  rev unique_tweets
  = served w (channel_ids_of d (acc_id a)) (rev unique_tweets)
    ++ unserved w (channel_ids_of d (acc_id a)) (rev unique_tweets)
  /\ process_account w a d
     = (match unserved w (channel_ids_of d (acc_id a))
                       (rev unique_tweets) with
        | [] => Ok tt
        | _ :: _ => Raise DiscordError
        end,
        advance (acc_id a)
          (served w (channel_ids_of d (acc_id a)) (rev unique_tweets)) d,
        deliveries w (acc_id a) (channel_ids_of d (acc_id a))
          (served w (channel_ids_of d (acc_id a)) (rev unique_tweets))
        ++ match unserved w (channel_ids_of d (acc_id a))
                          (rev unique_tweets) with
           | [] => []
           | p :: _ => attempt w p (channel_ids_of d (acc_id a))
           end)
  /\ cursor_updates (acc_id a) (events_of (process_account w a d))
     = map tweet_id
         (served w (channel_ids_of d (acc_id a)) (rev unique_tweets))
  /\ ((forall p, In p unique_tweets ->
                 sends_succeed w p (channel_ids_of d (acc_id a))) ->
      unserved w (channel_ids_of d (acc_id a)) (rev unique_tweets) = [])
  /\ (forall p rest,
         unserved w (channel_ids_of d (acc_id a)) (rev unique_tweets)
         = p :: rest ->
         exists c,
           In c (channel_ids_of d (acc_id a)) /\ get_channel w c = true
           /\ send_ok w c (render p) = false)
  /\ never_regresses (cursor_of d id)
       (cursor_updates id (snd (tweet_streamer (before ++ after) d)))
  /\ cursor_of (fst (tweet_streamer (before ++ after) d)) id
     = latest (cursor_of d id)
         (cursor_updates id (snd (tweet_streamer (before ++ after) d)))
  /\ cursor_le (cursor_of (fst (tweet_streamer before d)) id)
               (cursor_of (fst (tweet_streamer (before ++ after) d)) id).
Proof.
  pose proof (process_account_general w a d posts unique_tweets
                Hfetch Hdedupe) as E.
  split; [apply served_unserved|]. split; [exact E|]. split.
  { rewrite E. unfold events_of. simpl.
    rewrite cursor_updates_app, cursor_updates_deliveries, Z.eqb_refl.
    destruct (unserved _ _ _); [now rewrite app_nil_r|].
    now rewrite cursor_updates_attempt, app_nil_r. }
  split.
  { intros H. apply unserved_none. intros p Hp.
    apply all_sends_ok_spec, H. now apply in_rev. }
  split.
  { intros p rest H. apply raising_channel.
    exact (unserved_head _ _ _ _ _ H). }
  destruct (tweet_streamer_history (before ++ after) Hpos Hnew d id Hids)
    as [H1 H2].
  split; [exact H1|]. split; [exact H2|].
  assert (Hp : Forall positive_ids (before ++ after)) by exact Hpos.
  now apply tweet_streamer_monotone.
Qed.

(** ** The further properties at concrete inputs *)

Ltac distinct :=
  repeat (apply NoDup_cons; [simpl; intuition discriminate|]);
  apply NoDup_nil.

Lemma timelines_newest_first (nasa esa : list tweet)
    (get : string -> option (Z * string)) (gc : Z -> bool)
    (so : Z -> string -> bool) :
  StronglySorted (fun p q => tweet_id q <= tweet_id p) nasa ->
  StronglySorted (fun p q => tweet_id q <= tweet_id p) esa ->
  newest_first (mkWorld (timelines (Some nasa) (Some esa)) get gc so).
Proof.
  intros Hn He u posts. simpl. unfold timelines.
  destruct (u =? 100); [|destruct (u =? 200)]; intros E;
    injection E as <-; auto. constructor.
Qed.

Lemma threshold_world_positive : positive_ids threshold_world.
Proof. apply timelines_positive. repeat constructor. Qed.

Lemma threshold_world_newest_first : newest_first threshold_world.
Proof.
  apply timelines_newest_first;
    repeat (constructor; simpl; try lia).
Qed.

Lemma dedupe_preserves_order_witness :
  subsequence [post_a; post_c] [post_a; post_b; post_c].
Proof.
  exact (dedupe_preserves_order count_cosine [post_a; post_b; post_c]
           [post_a; post_c] (4 # 10) eq_refl).
Defined.

Lemma dedupe_keeps_first_witness :
  exists tail, [post_a; post_c] = post_a :: tail
               /\ subsequence tail [post_b; post_c].
Proof.
  exact (dedupe_keeps_first count_cosine post_a [post_b; post_c]
           [post_a; post_c] (4 # 10) eq_refl).
Defined.

Lemma dedupe_kept_below_threshold_witness :
  exists row,
    last_row_similarities (Vectorizer := count_cosine)
      (map tweet_text [post_a] ++ [tweet_text post_c]) = Some row
    /\ Forall (fun s => (s < 4 # 10)%Q) row.
Proof.
  refine (dedupe_kept_below_threshold count_cosine [post_a; post_b; post_c]
            [post_a; post_c] (4 # 10) [post_a] [] post_c eq_refl eq_refl _).
  discriminate.
Defined.

Lemma posted_embed_header_witness :
  client_get_channel open_client 7 = true
  /\ embed_title
       (mkEmbed "Liftoff" "https://twitter.com/i/web/status/42" 1942002
                (Some "https://pbs.example/a.jpg")
                (Some "[Video link](https://video.example/800.mp4)"))
     = data_text media_tweet
  /\ embed_url
       (mkEmbed "Liftoff" "https://twitter.com/i/web/status/42" 1942002
                (Some "https://pbs.example/a.jpg")
                (Some "[Video link](https://video.example/800.mp4)"))
     = permalink (data_id media_tweet)
  /\ embed_color
       (mkEmbed "Liftoff" "https://twitter.com/i/web/status/42" 1942002
                (Some "https://pbs.example/a.jpg")
                (Some "[Video link](https://video.example/800.mp4)"))
     = twitter_blue
  /\ (media_keys_of media_tweet = [] ->
      mkEmbed "Liftoff" "https://twitter.com/i/web/status/42" 1942002
              (Some "https://pbs.example/a.jpg")
              (Some "[Video link](https://video.example/800.mp4)")
      = base_embed media_tweet).
Proof.
  exact (posted_embed_header open_client media_tweet 7 _ eq_refl).
Defined.

Lemma media_keys_matter_by_position_witness :
  post_tweet_to_discord open_client
    (mkV2 "Liftoff" "42" (Some (Some ["3_1"; "7_2"]))
          (Some [video_media; photo_media])) 7
  = post_tweet_to_discord open_client
      (mkV2 "Liftoff" "42" (Some (Some ["x"; "3_1"]))
            (Some [video_media; photo_media])) 7.
Proof.
  refine (media_keys_matter_by_position open_client "Liftoff" "42"
            (Some [video_media; photo_media]) ["3_1"; "7_2"] ["x"; "3_1"]
            7 _ _ eq_refl); distinct.
Defined.

Lemma more_keys_than_media_never_posts_witness :
  exists err,
    attach_all short_tweet ["3_1"; "7_2"] (base_embed short_tweet)
               ["3_1"; "7_2"] = inl err
    /\ post_tweet_to_discord open_client short_tweet 7 = inl err
    /\ (err = PostKeyError \/ err = PostValueError \/ err = PostIndexError)
    /\ (forall e1,
           attach_all short_tweet ["3_1"; "7_2"] (base_embed short_tweet)
                      (firstn 1 ["3_1"; "7_2"]) = inr e1 ->
           err = PostIndexError).
Proof.
  refine (more_keys_than_media_never_posts open_client short_tweet 7
            [photo_media] eq_refl _ _).
  - distinct.
  - simpl. lia.
Defined.

Lemma last_media_decides_witness :
  (media_type photo_media = "photo"
   \/ media_type photo_media = "animated_gif" ->
   exists u,
     media_url photo_media = Some u
     /\ embed_image
          (mkEmbed "Liftoff" "https://twitter.com/i/web/status/42" 1942002
                   (Some "https://pbs.example/a.jpg")
                   (Some "[Video link](https://video.example/800.mp4)"))
        = Some u)
  /\ (media_type photo_media = "video" ->
      exists vs best,
        video_variants photo_media = Some vs /\ best_variant vs = Some best
        /\ embed_description
             (mkEmbed "Liftoff" "https://twitter.com/i/web/status/42"
                      1942002 (Some "https://pbs.example/a.jpg")
                      (Some "[Video link](https://video.example/800.mp4)"))
           = Some (video_link best)).
Proof.
  refine (last_media_decides open_client media_tweet 7 _ ["3_1"] "7_2"
            [video_media; photo_media] photo_media
            eq_refl eq_refl _ eq_refl eq_refl).
  distinct.
Defined.

Lemma only_new_posts_are_sent_witness :
  exists a posts p,
    In a (monitored_twitter_accounts threshold_db)
    /\ timeline threshold_world (twitter_id a) = Some posts
    /\ In p posts /\ 12 = tweet_id p /\ render post_b = render p
    /\ In 7 (channel_ids_of threshold_db (acc_id a))
    /\ get_channel threshold_world 7 = true
    /\ (forall cursor,
           last_tweet_id a = Some cursor -> cursor <> 0 -> cursor < 12).
Proof.
  refine (only_new_posts_are_sent count_cosine threshold_world threshold_db
            7 12 (render post_b) _).
  vm_compute. now left.
Defined.

Lemma cursor_lands_on_newest_witness :
  cursor_of
    (db_of (process_account (V := count_cosine) threshold_world
              (mkAccount 1 100 "nasa" (Some 10)) threshold_db)) 1
  = Some 12.
Proof.
  refine (cursor_lands_on_newest count_cosine threshold_world threshold_db
            (mkAccount 1 100 "nasa" (Some 10)) [post_b; post_a] [post_a]
            post_b _ eq_refl eq_refl eq_refl).
  simpl. now left.
Defined.

Lemma second_cycle_is_quiet_witness :
  result_of
    (stream_tweets (V := count_cosine) threshold_world
       (db_of (stream_tweets (V := count_cosine) threshold_world
                 threshold_db)))
  = Ok tt
  /\ db_of
       (stream_tweets (V := count_cosine) threshold_world
          (db_of (stream_tweets (V := count_cosine) threshold_world
                    threshold_db)))
     = db_of (stream_tweets (V := count_cosine) threshold_world threshold_db)
  /\ quiet
       (events_of
          (stream_tweets (V := count_cosine) threshold_world
             (db_of (stream_tweets (V := count_cosine) threshold_world
                       threshold_db)))).
Proof.
  refine (second_cycle_is_quiet count_cosine threshold_world threshold_db
            _ threshold_world_positive threshold_world_newest_first
            eq_refl).
  unfold unique_ids. simpl. distinct.
Defined.

Lemma persistent_send_error_stalls_witness :
  tweet_streamer (V := count_cosine) (repeat late_failing_world 3)
    two_channel_db
  = (two_channel_db,
     List.concat
       (repeat (sends late_failing_world post_plain [7]
                  ++ [SendRaised 8 23; StreamErrorPrinted]) 3)).
Proof.
  refine (persistent_send_error_stalls count_cosine late_failing_world
            two_channel_db (mkAccount 1 100 "nasa" None) [] [post_plain] []
            post_plain [7] [] 8 3 eq_refl eq_refl eq_refl eq_refl
            _ eq_refl eq_refl).
  intros c [<-|[]] _. reflexivity.
Defined.

Lemma bootstrap_db_auto_increment_ok : auto_increment_ok bootstrap_db.
Proof.
  split; intros x [<-|[]]; reflexivity.
Qed.

Lemma registration_keeps_keys_unique_witness :
  auto_increment_ok (subscribe "esa" 8 bootstrap_db)
  /\ unique_ids (subscribe "esa" 8 bootstrap_db)
  /\ NoDup (map twitter_id
              (monitored_twitter_accounts (subscribe "esa" 8 bootstrap_db))).
Proof.
  refine (registration_keeps_keys_unique quiet_world bootstrap_db
            (subscribe "esa" 8 bootstrap_db) "esa" 8
            bootstrap_db_auto_increment_ok _ _ eq_refl);
    [unfold unique_ids|]; simpl; distinct.
Defined.

Lemma registration_links_channel_witness :
  exists d' r,
    add_twitter_account quiet_world bootstrap_db "nasa" 9 = Some d'
    /\ find (fun x => twitter_id x =? 100) (monitored_twitter_accounts d')
       = Some r
    /\ In 9 (channel_ids_of d' (acc_id r))
    /\ match find (fun x => twitter_id x =? 100)
                  (monitored_twitter_accounts bootstrap_db) with
       | Some r0 =>
           r = r0
           /\ monitored_twitter_accounts d'
              = monitored_twitter_accounts bootstrap_db
       | None => r = mkAccount (monitored_auto bootstrap_db) 100 "nasa" None
       end.
Proof.
  exact (registration_links_channel quiet_world bootstrap_db "nasa" "nasa"
           9 100 eq_refl).
Defined.

Lemma first_cycle_after_subscribing_witness :
  exists d',
    add_twitter_account quiet_world empty_db "nasa" 7 = Some d'
    /\ In (mkAccount 1 100 "nasa" None) (monitored_twitter_accounts d')
    /\ process_account (V := count_cosine) bootstrap_world
         (mkAccount 1 100 "nasa" None) d'
       = (Ok tt, set_cursor 1 13 d',
          [Sent 7 13 (render post_c); CursorSet 1 13]).
Proof.
  refine (first_cycle_after_subscribing count_cosine quiet_world
            bootstrap_world empty_db "nasa" "nasa" 7 100 post_c
            [post_b; post_a] eq_refl eq_refl _ eq_refl eq_refl eq_refl).
  split; intros x [].
Defined.

Lemma double_subscription_sends_twice_witness :
  exists r,
    find (fun x => twitter_id x =? 100)
         (monitored_twitter_accounts
            (subscribe "nasa" 7 (subscribe "nasa" 7 empty_db)))
    = Some r
    /\ channel_ids_of (subscribe "nasa" 7 (subscribe "nasa" 7 empty_db))
                      (acc_id r)
       = channel_ids_of empty_db (acc_id r) ++ [7; 7]
    /\ (sends_succeed bootstrap_world post_c
          (channel_ids_of (subscribe "nasa" 7 (subscribe "nasa" 7 empty_db))
                          (acc_id r)) ->
        get_channel bootstrap_world 7 = true ->
        channels_sent (tweet_id post_c)
          (events_of
             (deliver_tweet bootstrap_world (acc_id r) post_c
                (subscribe "nasa" 7 (subscribe "nasa" 7 empty_db))))
        = filter (get_channel bootstrap_world)
                 (channel_ids_of empty_db (acc_id r))
            ++ [7; 7]).
Proof.
  exact (double_subscription_sends_twice quiet_world bootstrap_world
           empty_db (subscribe "nasa" 7 empty_db)
           (subscribe "nasa" 7 (subscribe "nasa" 7 empty_db))
           "nasa" "nasa" 7 100 post_c eq_refl eq_refl eq_refl).
Defined.

Lemma vectorizer_error_stalls_witness :
  tweet_streamer (V := count_cosine) (repeat mute_world 3) mute_db
  = (mute_db, repeat StreamErrorPrinted 3).
Proof.
  exact (vectorizer_error_stalls count_cosine mute_world mute_db
           (mkAccount 1 100 "nasa" (Some 40)) [] [mute_b; mute_a] 3
           eq_refl eq_refl eq_refl).
Defined.

Lemma partial_world_positive : positive_ids partial_world.
Proof. apply timelines_positive. repeat constructor. Qed.

Lemma filtered_world_positive : positive_ids filtered_world.
Proof. apply timelines_positive. repeat constructor. Qed.

Lemma partial_world_newest_first : newest_first partial_world.
Proof.
  apply timelines_newest_first; repeat (constructor; simpl; try lia).
Qed.

Lemma filtered_world_newest_first : newest_first filtered_world.
Proof.
  apply timelines_newest_first; repeat (constructor; simpl; try lia).
Qed.

Lemma cursor_advance_after_fanout_witness :
  rev [post_plain; post_reply; post_retweet]
  = [post_retweet; post_reply] ++ [post_plain]
  /\ process_account (V := count_cosine) partial_world
       (mkAccount 1 100 "nasa" (Some 20)) partial_db
     = (Raise DiscordError, advance 1 [post_retweet; post_reply] partial_db,
        [Sent 7 21 (render post_retweet); Sent 8 21 (render post_retweet);
         CursorSet 1 21;
         Sent 7 22 (render post_reply); Sent 8 22 (render post_reply);
         CursorSet 1 22;
         Sent 7 23 (render post_plain); SendRaised 8 23])
  /\ cursor_updates 1
       (events_of (process_account (V := count_cosine) partial_world
                     (mkAccount 1 100 "nasa" (Some 20)) partial_db))
     = [21; 22]
  /\ ((forall p, In p [post_plain; post_reply; post_retweet] ->
                 sends_succeed partial_world p [7; 8]) ->
      [post_plain] = [])
  /\ (forall p rest,
         [post_plain] = p :: rest ->
         exists c,
           In c [7; 8] /\ get_channel partial_world c = true
           /\ send_ok partial_world c (render p) = false)
  /\ never_regresses (Some 20) [21; 22; 23]
  /\ cursor_of
       (fst (tweet_streamer (V := count_cosine)
               ([partial_world] ++ [filtered_world]) partial_db)) 1
     = Some 23
  /\ cursor_le
       (cursor_of
          (fst (tweet_streamer (V := count_cosine) [partial_world]
                  partial_db)) 1)
       (cursor_of
          (fst (tweet_streamer (V := count_cosine)
                  ([partial_world] ++ [filtered_world]) partial_db)) 1).
Proof.
  refine (cursor_advance_after_fanout count_cosine partial_world partial_db
            (mkAccount 1 100 "nasa" (Some 20))
            [post_plain; post_reply; post_retweet]
            [post_plain; post_reply; post_retweet]
            [partial_world] [filtered_world] 1 eq_refl eq_refl _ _ _).
  - unfold unique_ids. simpl. distinct.
  - repeat constructor;
      [exact partial_world_positive|exact filtered_world_positive].
  - repeat constructor;
      [exact partial_world_newest_first|exact filtered_world_newest_first].
Defined.
